(** * arecordmidi: recording a Standard MIDI File from sequencer events

    A shallow embedding of the encoder core of [arecordmidi.c]: the chunked
    byte buffer of the track ([add_byte]), the variable-length quantities
    ([var_value], [var_value_direct]), delta times and running status
    ([delta_time], [command]), the translation of sequencer events
    ([record_event]) and the assembly of the file ([write_header],
    [flush_buffer], [write_track_end], [update_length]).

    Conventions.  A byte is a [Z] in [0, 256); a C conversion to
    [unsigned char], [unsigned int] or [int] is written out with [to_uchar],
    [to_uint] and [to_int].  Arithmetic on [int] that C leaves undefined on
    overflow (the byte counters of the track) is carried out in [Z]; the
    theorems that read such a counter back as a 32-bit pattern state the
    range they need.  [calloc] is taken to succeed: its failure branch calls
    [fatal], which ends the process. *)

From Stdlib Require Import ZArith List Lia Bool.
From stdpp Require Import base list.

Local Open Scope Z_scope.

(** ** Machine integers *)

Definition to_uchar (z : Z) : Z := z mod 256.
Definition to_uint (z : Z) : Z := z mod 2 ^ 32.
Definition to_int (z : Z) : Z := (z + 2 ^ 31) mod 2 ^ 32 - 2 ^ 31.

Definition INT_MAX : Z := 2 ^ 31 - 1.

(** ** The track and its chain of buffers *)

Definition BUFFER_SIZE : Z := 4088.

(** [struct buffer] is a node of a singly linked list; the chain that starts
    at [first_buf] is kept as the list of the [buf] arrays in [next] order, and
    the pointer [cur_buf] as the position of its target in that chain. *)
Record smf_track := {
  size : Z;                    (* size of entire data *)
  cur_buf_size : Z;            (* size of cur_buf *)
  cur_buf : nat;
  last_tick : Z;               (* end of track *)
  last_command : Z;            (* used for running status *)
  first_buf : list (list Z)    (* list head *)
}.

(** What [calloc(1, sizeof(struct buffer))] returns: a zeroed array. *)
Definition calloc_buffer : list Z := replicate (Z.to_nat BUFFER_SIZE) 0.

(** [static struct smf_track track = { };] after [init_tracks], which points
    [cur_buf] at [first_buf]. *)
Definition init_tracks : smf_track :=
  {| size := 0; cur_buf_size := 0; cur_buf := 0%nat;
     last_tick := 0; last_command := 0;
     first_buf := [calloc_buffer] |}.

(* records a byte to be written to the .mid file *)
Definition add_byte (track : smf_track) (byte : Z) : smf_track :=
  (* make sure we have enough room in the current buffer *)
  let track :=
    if BUFFER_SIZE <=? cur_buf_size track then
      {| size := size track;
         cur_buf_size := 0;
         cur_buf := S (cur_buf track);
         last_tick := last_tick track;
         last_command := last_command track;
         first_buf := take (S (cur_buf track)) (first_buf track) ++ [calloc_buffer] |}
    else track in
  {| size := size track + 1;
     cur_buf_size := cur_buf_size track + 1;
     cur_buf := cur_buf track;
     last_tick := last_tick track;
     last_command := last_command track;
     first_buf :=
       alter (fun b : list Z => <[Z.to_nat (cur_buf_size track) := to_uchar byte]> b)
             (cur_buf track) (first_buf track) |}.

(* record a variable-length quantity *)
Definition var_value (track : smf_track) (v : Z) : smf_track :=
  let track :=
    if 1 ≪ 28 <=? v then add_byte track (Z.lor 0x80 (Z.land (v ≫ 28) 0x03)) else track in
  let track :=
    if 1 ≪ 21 <=? v then add_byte track (Z.lor 0x80 (Z.land (v ≫ 21) 0x7f)) else track in
  let track :=
    if 1 ≪ 14 <=? v then add_byte track (Z.lor 0x80 (Z.land (v ≫ 14) 0x7f)) else track in
  let track :=
    if 1 ≪ 7 <=? v then add_byte track (Z.lor 0x80 (Z.land (v ≫ 7) 0x7f)) else track in
  add_byte track (Z.land v 0x7f).

(** The chunks of the body in append order, as [flush_buffer] hands them to
    [fwrite]: [BUFFER_SIZE] bytes of every buffer but the current one, of which
    only the first [cur_buf_size] bytes are used. *)
Definition chunk_size (track : smf_track) (i : nat) : Z :=
  if Nat.eqb i (cur_buf track) then cur_buf_size track else BUFFER_SIZE.

Definition chunks (track : smf_track) : list (list Z) :=
  imap (fun i b => take (Z.to_nat (chunk_size track i)) b) (first_buf track).

Definition track_data (track : smf_track) : list Z := concat (chunks track).

(** The bytes [var_value] appends for [v]: run it on the empty track. *)
Definition var_value_bytes (v : Z) : list Z := track_data (var_value init_tracks v).


(** ** Sequencer events *)

(** Modelled from the spec: the event kinds of [<alsa/asoundlib.h>] that
    [record_event] switches on (the header is not part of this repository);
    section 3 of the specification lists the same variants, every other kind
    being [Ignored(other)]. *)
Inductive snd_seq_event_type :=
  | SND_SEQ_EVENT_NOTEON
  | SND_SEQ_EVENT_NOTEOFF
  | SND_SEQ_EVENT_KEYPRESS
  | SND_SEQ_EVENT_CONTROLLER
  | SND_SEQ_EVENT_PGMCHANGE
  | SND_SEQ_EVENT_CHANPRESS
  | SND_SEQ_EVENT_PITCHBEND
  | SND_SEQ_EVENT_CONTROL14
  | SND_SEQ_EVENT_NONREGPARAM
  | SND_SEQ_EVENT_REGPARAM
  | SND_SEQ_EVENT_SYSEX
  | SND_SEQ_EVENT_other (code : Z).

(** Modelled from the spec: [snd_seq_event_t], with the fields that
    [record_event] reads.  The views [note], [control] and [ext] of the union
    [data] are kept side by side; [ext] is the payload [ptr[0 .. len-1]]. *)
Record snd_seq_event := {
  type : snd_seq_event_type;
  ev_queue : Z;
  snd_seq_ev_is_tick : bool;
  time_tick : Z;
  dest_port : Z;
  note_channel : Z;
  note_note : Z;
  note_velocity : Z;
  control_channel : Z;
  control_param : Z;
  control_value : Z;
  ext : list Z
}.

(** Modelled from the spec: the status bytes of the channel messages, by the
    table of section 4.4 (the definitions of [<alsa/asoundef.h>]). *)
Definition MIDI_CMD_NOTE_OFF : Z := 0x80.
Definition MIDI_CMD_NOTE_ON : Z := 0x90.
Definition MIDI_CMD_NOTE_PRESSURE : Z := 0xa0.
Definition MIDI_CMD_CONTROL : Z := 0xb0.
Definition MIDI_CMD_PGM_CHANGE : Z := 0xc0.
Definition MIDI_CMD_CHANNEL_PRESSURE : Z := 0xd0.
Definition MIDI_CMD_BENDER : Z := 0xe0.

(** Modelled from the spec: the controller numbers of the parameter-number
    and data-entry controllers; section 4.4 names them, the numbers are those
    of the MIDI standard. *)
Definition MIDI_CTL_MSB_DATA_ENTRY : Z := 0x06.
Definition MIDI_CTL_LSB_DATA_ENTRY : Z := 0x26.
Definition MIDI_CTL_NONREG_PARM_NUM_LSB : Z := 0x62.
Definition MIDI_CTL_NONREG_PARM_NUM_MSB : Z := 0x63.
Definition MIDI_CTL_REGIST_PARM_NUM_LSB : Z := 0x64.
Definition MIDI_CTL_REGIST_PARM_NUM_MSB : Z := 0x65.

(** ** Delta times and running status *)

Definition set_last_tick (track : smf_track) (tick : Z) : smf_track :=
  {| size := size track; cur_buf_size := cur_buf_size track;
     cur_buf := cur_buf track; last_tick := tick;
     last_command := last_command track; first_buf := first_buf track |}.

Definition set_last_command (track : smf_track) (cmd : Z) : smf_track :=
  {| size := size track; cur_buf_size := cur_buf_size track;
     cur_buf := cur_buf track; last_tick := last_tick track;
     last_command := cmd; first_buf := first_buf track |}.

(** [snd_seq_tick_time_t tick = ev->time.tick - t_start]. *)
Definition event_tick (t_start : Z) (ev : snd_seq_event) : Z :=
  to_uint (time_tick ev - t_start).

(** [int diff = tick - track->last_tick]: an unsigned difference, converted
    to [int]. *)
Definition tick_diff (track : smf_track) (tick : Z) : Z :=
  to_int (to_uint (tick - last_tick track)).

(* record the delta time from the last event *)
Definition delta_time (t_start : Z) (track : smf_track) (ev : snd_seq_event)
  : smf_track :=
  let tick := event_tick t_start ev in
  let diff := tick_diff track tick in
  let diff := if diff <? 0 then 0 else diff in
  let track := var_value track diff in
  set_last_tick track tick.

(* record a status byte (or not if we can use running status) *)
Definition command (track : smf_track) (cmd : Z) : smf_track :=
  let cmd := to_uchar cmd in
  let track :=
    if negb (cmd =? last_command track) then add_byte track cmd else track in
  set_last_command track (if cmd <? 0xf0 then cmd else 0).

(** ** The globals of the recorder *)

(** [FILE *file]: the bytes of the file and the position of the next write. *)
Record FILE := {
  contents : list Z;
  pos : Z
}.

Record globals := {
  t_start : Z;
  track : smf_track;
  file : FILE;
  size_offset : Z
}.

Definition set_t_start (g : globals) (t : Z) : globals :=
  {| t_start := t; track := track g; file := file g; size_offset := size_offset g |}.

Definition set_track (g : globals) (t : smf_track) : globals :=
  {| t_start := t_start g; track := t; file := file g; size_offset := size_offset g |}.

Definition set_file (g : globals) (f : FILE) : globals :=
  {| t_start := t_start g; track := track g; file := f; size_offset := size_offset g |}.

Definition set_size_offset (g : globals) (o : Z) : globals :=
  {| t_start := t_start g; track := track g; file := file g; size_offset := o |}.

(** The settings that are fixed once the options are parsed and the queue is
    created. *)
Record options := {
  queue : Z;
  smpte_timing : bool;
  beats : Z;
  frames : Z;
  ticks : Z;
  ts_num : Z;     (* time signature: numerator *)
  ts_dd : Z       (* time signature: denominator as a power of two *)
}.

(** ** Translating one event *)

Definition record_event (queue : Z) (ev : snd_seq_event) (g : globals) : globals :=
  (* ignore events without proper timestamps *)
  if negb (ev_queue ev =? queue) || negb (snd_seq_ev_is_tick ev) then g else
  let g := if t_start g =? 0 then set_t_start g (time_tick ev) else g in
  (* determine which track to record to *)
  if negb (dest_port ev =? 0) then g else
  let t_start := t_start g in
  let track := track g in
  match type ev with
  | SND_SEQ_EVENT_NOTEON =>
      let track := delta_time t_start track ev in
      let track := command track (Z.lor MIDI_CMD_NOTE_ON (Z.land (note_channel ev) 0xf)) in
      let track := add_byte track (Z.land (note_note ev) 0x7f) in
      let track := add_byte track (Z.land (note_velocity ev) 0x7f) in
      set_track g track
  | SND_SEQ_EVENT_NOTEOFF =>
      let track := delta_time t_start track ev in
      let track := command track (Z.lor MIDI_CMD_NOTE_OFF (Z.land (note_channel ev) 0xf)) in
      let track := add_byte track (Z.land (note_note ev) 0x7f) in
      let track := add_byte track (Z.land (note_velocity ev) 0x7f) in
      set_track g track
  | SND_SEQ_EVENT_KEYPRESS =>
      let track := delta_time t_start track ev in
      let track := command track (Z.lor MIDI_CMD_NOTE_PRESSURE (Z.land (note_channel ev) 0xf)) in
      let track := add_byte track (Z.land (note_note ev) 0x7f) in
      let track := add_byte track (Z.land (note_velocity ev) 0x7f) in
      set_track g track
  | SND_SEQ_EVENT_CONTROLLER =>
      let track := delta_time t_start track ev in
      let track := command track (Z.lor MIDI_CMD_CONTROL (Z.land (control_channel ev) 0xf)) in
      let track := add_byte track (Z.land (control_param ev) 0x7f) in
      let track := add_byte track (Z.land (control_value ev) 0x7f) in
      set_track g track
  | SND_SEQ_EVENT_PGMCHANGE =>
      let track := delta_time t_start track ev in
      let track := command track (Z.lor MIDI_CMD_PGM_CHANGE (Z.land (control_channel ev) 0xf)) in
      let track := add_byte track (Z.land (control_value ev) 0x7f) in
      set_track g track
  | SND_SEQ_EVENT_CHANPRESS =>
      let track := delta_time t_start track ev in
      let track := command track (Z.lor MIDI_CMD_CHANNEL_PRESSURE (Z.land (control_channel ev) 0xf)) in
      let track := add_byte track (Z.land (control_value ev) 0x7f) in
      set_track g track
  | SND_SEQ_EVENT_PITCHBEND =>
      let track := delta_time t_start track ev in
      let track := command track (Z.lor MIDI_CMD_BENDER (Z.land (control_channel ev) 0xf)) in
      let track := add_byte track (Z.land (control_value ev + 8192) 0x7f) in
      let track := add_byte track (Z.land ((control_value ev + 8192) ≫ 7) 0x7f) in
      set_track g track
  | SND_SEQ_EVENT_CONTROL14 =>
      (* create two commands for MSB and LSB *)
      let track := delta_time t_start track ev in
      let track := command track (Z.lor MIDI_CMD_CONTROL (Z.land (control_channel ev) 0xf)) in
      let track := add_byte track (Z.land (control_param ev) 0x7f) in
      let track := add_byte track (Z.land (control_value ev ≫ 7) 0x7f) in
      let track :=
        if Z.land (control_param ev) 0x7f <? 0x20 then
          let track := delta_time t_start track ev in
          (* running status *)
          let track := add_byte track (Z.land (control_param ev) 0x7f + 0x20) in
          add_byte track (Z.land (control_value ev) 0x7f)
        else track in
      set_track g track
  | SND_SEQ_EVENT_NONREGPARAM =>
      let track := delta_time t_start track ev in
      let track := command track (Z.lor MIDI_CMD_CONTROL (Z.land (control_channel ev) 0xf)) in
      let track := add_byte track MIDI_CTL_NONREG_PARM_NUM_LSB in
      let track := add_byte track (Z.land (control_param ev) 0x7f) in
      let track := delta_time t_start track ev in
      let track := add_byte track MIDI_CTL_NONREG_PARM_NUM_MSB in
      let track := add_byte track (Z.land (control_param ev ≫ 7) 0x7f) in
      let track := delta_time t_start track ev in
      let track := add_byte track MIDI_CTL_MSB_DATA_ENTRY in
      let track := add_byte track (Z.land (control_value ev ≫ 7) 0x7f) in
      let track := delta_time t_start track ev in
      let track := add_byte track MIDI_CTL_LSB_DATA_ENTRY in
      let track := add_byte track (Z.land (control_value ev) 0x7f) in
      set_track g track
  | SND_SEQ_EVENT_REGPARAM =>
      let track := delta_time t_start track ev in
      let track := command track (Z.lor MIDI_CMD_CONTROL (Z.land (control_channel ev) 0xf)) in
      let track := add_byte track MIDI_CTL_REGIST_PARM_NUM_LSB in
      let track := add_byte track (Z.land (control_param ev) 0x7f) in
      let track := delta_time t_start track ev in
      let track := add_byte track MIDI_CTL_REGIST_PARM_NUM_MSB in
      let track := add_byte track (Z.land (control_param ev ≫ 7) 0x7f) in
      let track := delta_time t_start track ev in
      let track := add_byte track MIDI_CTL_MSB_DATA_ENTRY in
      let track := add_byte track (Z.land (control_value ev ≫ 7) 0x7f) in
      let track := delta_time t_start track ev in
      let track := add_byte track MIDI_CTL_LSB_DATA_ENTRY in
      let track := add_byte track (Z.land (control_value ev) 0x7f) in
      set_track g track
  | SND_SEQ_EVENT_SYSEX =>
      match ext ev with
      | [] => g                                  (* ev->data.ext.len == 0 *)
      | first :: _ =>
          let track := delta_time t_start track ev in
          let track :=
            if to_uchar first =? 0xf0 then command track 0xf0 else command track 0xf7 in
          let track := var_value track (to_int (Z.of_nat (length (ext ev)))) in
          let track := fold_left add_byte (ext ev) track in
          set_track g track
      end
  | SND_SEQ_EVENT_other _ => g
  end.

(** ** The output file *)

(** [fopen(filename, "wb")]: an empty file. *)
Definition fopen : FILE := {| contents := []; pos := 0 |}.

(** Storing one byte at the position of the file: over the byte that is
    there, or past the end (a gap left by a seek beyond the end reads as
    zeros). *)
Definition put_byte (b : Z) (f : FILE) : FILE :=
  let p := Z.to_nat (pos f) in
  {| contents :=
       if (p <? length (contents f))%nat then <[p := b]> (contents f)
       else contents f ++ replicate (p - length (contents f)) 0 ++ [b];
     pos := pos f + 1 |}.

(** [fputc] converts its argument to [unsigned char]. *)
Definition fputc (c : Z) (f : FILE) : FILE := put_byte (to_uchar c) f.

(** [fwrite(ptr, 1, n, file)]: the first [n] bytes of the array [ptr], one
    after the other. *)
Definition fwrite (ptr : list Z) (n : Z) (f : FILE) : FILE :=
  fold_left (fun f b => put_byte b f) (take (Z.to_nat n) ptr) f.

Definition ftell (f : FILE) : Z := pos f.

Definition fseek (f : FILE) (offset : Z) : FILE :=
  {| contents := contents f; pos := offset |}.

Definition write_header (o : options) (g : globals) : globals :=
  let file := file g in
  (* header id and length: "MThd\0\0\0\6" *)
  let file := fwrite [0x4d; 0x54; 0x68; 0x64; 0; 0; 0; 6] 8 file in
  (* type 0 or 1 *)
  let file := fputc 0 file in
  let file := fputc 0 file in
  (* number of tracks *)
  let file := fputc (Z.land (1 ≫ 8) 0xff) file in
  let file := fputc (Z.land 1 0xff) file in
  (* time division *)
  let time_division := ticks o in
  let time_division :=
    if smpte_timing o then Z.lor time_division ((0x100 - frames o) ≪ 8)
    else time_division in
  let file := fputc (time_division ≫ 8) file in
  let file := fputc (Z.land time_division 0xff) file in
  (* track id: "MTrk" *)
  let file := fwrite [0x4d; 0x54; 0x72; 0x6b] 4 file in
  (* data length *)
  let g := set_size_offset g (ftell file) in
  let file := fputc (Z.land (size (track g) ≫ 24) 0xff) file in
  let file := fputc (Z.land (size (track g) ≫ 16) 0xff) file in
  let file := fputc (Z.land (size (track g) ≫ 8) 0xff) file in
  let file := fputc (Z.land (size (track g)) 0xff) file in
  set_file g file.

(* record a variable-length quantity directly to file *)
Definition var_value_direct (v : Z) (file : FILE) : Z * FILE :=
  let extra_size := 0 in
  let '(extra_size, file) :=
    if 1 ≪ 28 <=? v
    then (extra_size + 1, fputc (Z.lor 0x80 (Z.land (v ≫ 28) 0x03)) file)
    else (extra_size, file) in
  let '(extra_size, file) :=
    if 1 ≪ 21 <=? v
    then (extra_size + 1, fputc (Z.lor 0x80 (Z.land (v ≫ 21) 0x7f)) file)
    else (extra_size, file) in
  let '(extra_size, file) :=
    if 1 ≪ 14 <=? v
    then (extra_size + 1, fputc (Z.lor 0x80 (Z.land (v ≫ 14) 0x7f)) file)
    else (extra_size, file) in
  let '(extra_size, file) :=
    if 1 ≪ 7 <=? v
    then (extra_size + 1, fputc (Z.lor 0x80 (Z.land (v ≫ 7) 0x7f)) file)
    else (extra_size, file) in
  let file := fputc (Z.land v 0x7f) file in
  (extra_size + 1, file).

(** The loop of [flush_buffer], from the buffer at position [i] of the chain
    on: the current buffer gives [cur_buf_size] bytes, any other
    [BUFFER_SIZE]. *)
Fixpoint flush_chain (track : smf_track) (i : nat) (chain : list (list Z))
  (file : FILE) : FILE :=
  match chain with
  | [] => file
  | buf :: next =>
      flush_chain track (S i) next
        (fwrite buf
           (if Nat.eqb i (cur_buf track) then cur_buf_size track else BUFFER_SIZE)
           file)
  end.

Definition flush_buffer (g : globals) : globals :=
  (* track contents *)
  set_file g (flush_chain (track g) 0 (first_buf (track g)) (file g)).

Definition set_size (track : smf_track) (n : Z) : smf_track :=
  {| size := n; cur_buf_size := cur_buf_size track;
     cur_buf := cur_buf track; last_tick := last_tick track;
     last_command := last_command track; first_buf := first_buf track |}.

Definition update_length (extra_size : Z) (g : globals) : globals :=
  (* Save position *)
  let saved_pos := ftell (file g) in
  (* Jump back to where we recorded the length *)
  let file := fseek (file g) (size_offset g) in
  let g := set_track g (set_size (track g) (size (track g) + extra_size)) in
  let size := size (track g) in
  let file := fputc (Z.land (size ≫ 24) 0xff) file in
  let file := fputc (Z.land (size ≫ 16) 0xff) file in
  let file := fputc (Z.land (size ≫ 8) 0xff) file in
  let file := fputc (Z.land size 0xff) file in
  (* Jump back to where we were *)
  set_file g (fseek file saved_pos).

(** [queue_tick] is what [snd_seq_queue_status_get_tick_time] reports when
    the recording stops; it is stored in an [int]. *)
Definition write_track_end (queue_tick : Z) (g : globals) : Z * globals :=
  let extra_size := 0 in
  let tick := to_int queue_tick in
  (* make length of first (and only) track the recording length *)
  let '(n, file) :=
    var_value_direct (to_int (to_uint (tick - last_tick (track g)))) (file g) in
  let extra_size := extra_size + n in
  let file := fputc 0xff file in
  let file := fputc 0x2f file in
  let extra_size := extra_size + 2 in
  let '(n, file) := var_value_direct 0 file in
  let extra_size := extra_size + n in
  (extra_size, set_file g file).

(** The block [record tempo] of [main], run when [smpte_timing] is off. *)
Definition record_tempo (o : options) (track : smf_track) : smf_track :=
  let usecs_per_quarter := 60000000 ÷ beats o in
  let track := var_value track 0 in (* delta time *)
  let track := add_byte track 0xff in
  let track := add_byte track 0x51 in
  let track := var_value track 3 in
  let track := add_byte track (usecs_per_quarter ≫ 16) in
  let track := add_byte track (usecs_per_quarter ≫ 8) in
  let track := add_byte track usecs_per_quarter in
  (* time signature *)
  let track := var_value track 0 in (* delta time *)
  let track := add_byte track 0xff in
  let track := add_byte track 0x58 in
  let track := var_value track 4 in
  let track := add_byte track (ts_num o) in
  let track := add_byte track (ts_dd o) in
  let track := add_byte track 24 in (* MIDI clocks per metronome click *)
  add_byte track 8. (* notated 32nd-notes per MIDI quarter note *)

(** [main], from [init_tracks] on: [events] are the events the polling loop
    hands to [record_event] before it stops, in order. *)
Definition recording_start (o : options) : globals :=
  let track := init_tracks in
  let track := if smpte_timing o then track else record_tempo o track in
  let g := {| t_start := 0; track := track; file := fopen; size_offset := 0 |} in
  write_header o g.

Definition record_events (o : options) (events : list snd_seq_event)
  (g : globals) : globals :=
  fold_left (fun g ev => record_event (queue o) ev g) events g.

Definition recording_end (queue_tick : Z) (g : globals) : globals :=
  let g := flush_buffer g in
  let '(extra_size, g) := write_track_end queue_tick g in
  update_length extra_size g.

Definition main (o : options) (events : list snd_seq_event) (queue_tick : Z)
  : globals :=
  recording_end queue_tick (record_events o events (recording_start o)).

(** ** Invariants of the track *)

(** The shape of the track between two calls: [cur_buf] is the last buffer
    of the chain, every buffer is a full array, the current one is used up to
    [cur_buf_size], and [size] counts the buffers before it in full. *)
Record track_wf (t : smf_track) : Prop := {
  wf_cur_buf : S (cur_buf t) = length (first_buf t);
  wf_first_buf : Forall (fun b : list Z => length b = Z.to_nat BUFFER_SIZE) (first_buf t);
  wf_cur_buf_size : 0 <= cur_buf_size t <= BUFFER_SIZE;
  wf_size : size t = Z.of_nat (cur_buf t) * BUFFER_SIZE + cur_buf_size t
}.

(** The tracks that recording goes through: the empty track, and what the
    assignments of [add_byte], [delta_time] and [command] make of it. *)
Inductive track_reachable : smf_track -> Prop :=
  | reachable_init : track_reachable init_tracks
  | reachable_add_byte t byte :
      track_reachable t -> track_reachable (add_byte t byte)
  | reachable_last_tick t tick :
      track_reachable t -> track_reachable (set_last_tick t tick)
  | reachable_last_command t cmd :
      track_reachable t -> track_reachable (set_last_command t cmd).

(** [appends t t' bytes]: [t'] is a well-formed track whose data is that of
    [t] followed by [bytes], counted in [size]. *)
Definition appends (t t' : smf_track) (bytes : list Z) : Prop :=
  track_wf t' /\
  track_data t' = track_data t ++ bytes /\
  size t' = size t + Z.of_nat (length bytes).

(** ** Variable-length quantities: reference definitions *)

(** The emission ladder of [var_value] and [var_value_direct], as a list. *)
Definition vlq_ladder (v : Z) : list Z :=
  (if 1 ≪ 28 <=? v then [Z.lor 0x80 (Z.land (v ≫ 28) 0x03)] else []) ++
  (if 1 ≪ 21 <=? v then [Z.lor 0x80 (Z.land (v ≫ 21) 0x7f)] else []) ++
  (if 1 ≪ 14 <=? v then [Z.lor 0x80 (Z.land (v ≫ 14) 0x7f)] else []) ++
  (if 1 ≪ 7 <=? v then [Z.lor 0x80 (Z.land (v ≫ 7) 0x7f)] else []) ++
  [Z.land v 0x7f].

(** The ladder of four steps, for values below [2^28]: a byte for the bits
    from 21 up when [v >= 2^21], one for the bits from 14 up when
    [v >= 2^14], one for the bits from 7 up when [v >= 2^7], and always the
    last byte [v & 0x7f]. *)
Definition vlq_ladder4 (v : Z) : list Z :=
  (if 2 ^ 21 <=? v then [Z.lor 0x80 (Z.land (v ≫ 21) 0x7f)] else []) ++
  (if 2 ^ 14 <=? v then [Z.lor 0x80 (Z.land (v ≫ 14) 0x7f)] else []) ++
  (if 2 ^ 7 <=? v then [Z.lor 0x80 (Z.land (v ≫ 7) 0x7f)] else []) ++
  [Z.land v 0x7f].

(** The variable-length quantity of the MIDI file format: the value in
    groups of seven bits, most significant group first, as few groups as the
    value needs, bit 7 set in every byte but the last. *)
Definition vlq_canonical (v : Z) : list Z :=
  let groups := Z.to_nat (Z.log2 v / 7) in
  map (fun i : nat => Z.lor 0x80 (Z.land (v ≫ (7 * Z.of_nat i)) 0x7f))
      (rev (seq 1 groups))
  ++ [Z.land v 0x7f].

(** Reading a variable-length quantity back. *)
Definition vlq_decode (bytes : list Z) : Z :=
  fold_left (fun acc b => acc * 128 + Z.land b 0x7f) bytes 0.

(** The boundary values of the variable-length quantity, each with its
    encoding in the MIDI file format. *)
Definition vlq_boundaries : list (Z * list Z) :=
  [ (0, [0x00]); (127, [0x7f]);
    (128, [0x81; 0x00]); (16383, [0xff; 0x7f]);
    (16384, [0x81; 0x80; 0x00]); (2097151, [0xff; 0xff; 0x7f]);
    (2097152, [0x81; 0x80; 0x80; 0x00]); (268435455, [0xff; 0xff; 0xff; 0x7f]) ].

(** ** The translation of an event, as a table *)

(** The events that pass the filters of [record_event]: stamped in ticks by
    our queue, and sent to port 0. *)
Definition accepted (queue : Z) (ev : snd_seq_event) : Prop :=
  ev_queue ev = queue /\ snd_seq_ev_is_tick ev = true /\ dest_port ev = 0.

(** The value of [t_start] with which [ev] is translated. *)
Definition origin (g : globals) (ev : snd_seq_event) : Z :=
  if t_start g =? 0 then time_tick ev else t_start g.

(** The delta time that the first [delta_time] of [ev] records. *)
Definition event_delta (g : globals) (ev : snd_seq_event) : Z :=
  Z.max 0 (tick_diff (track g) (event_tick (origin g ev) ev)).

(** The table of section 4.4 of the specification, first column: the status
    byte of the channel message that an event makes. *)
Definition message_status (ev : snd_seq_event) : option Z :=
  match type ev with
  | SND_SEQ_EVENT_NOTEON => Some (Z.lor 0x90 (Z.land (note_channel ev) 0xf))
  | SND_SEQ_EVENT_NOTEOFF => Some (Z.lor 0x80 (Z.land (note_channel ev) 0xf))
  | SND_SEQ_EVENT_KEYPRESS => Some (Z.lor 0xa0 (Z.land (note_channel ev) 0xf))
  | SND_SEQ_EVENT_CONTROLLER => Some (Z.lor 0xb0 (Z.land (control_channel ev) 0xf))
  | SND_SEQ_EVENT_PGMCHANGE => Some (Z.lor 0xc0 (Z.land (control_channel ev) 0xf))
  | SND_SEQ_EVENT_CHANPRESS => Some (Z.lor 0xd0 (Z.land (control_channel ev) 0xf))
  | SND_SEQ_EVENT_PITCHBEND => Some (Z.lor 0xe0 (Z.land (control_channel ev) 0xf))
  | SND_SEQ_EVENT_CONTROL14
  | SND_SEQ_EVENT_NONREGPARAM
  | SND_SEQ_EVENT_REGPARAM => Some (Z.lor 0xb0 (Z.land (control_channel ev) 0xf))
  | SND_SEQ_EVENT_SYSEX
  | SND_SEQ_EVENT_other _ => None
  end.

(** The same table, second column: what follows the status byte.  These are
    the data bytes and, where one event makes several controller messages, the
    later messages, each with its delta time of 0 and under running status. *)
Definition message_data (ev : snd_seq_event) : list Z :=
  match type ev with
  | SND_SEQ_EVENT_NOTEON
  | SND_SEQ_EVENT_NOTEOFF
  | SND_SEQ_EVENT_KEYPRESS =>
      [Z.land (note_note ev) 0x7f; Z.land (note_velocity ev) 0x7f]
  | SND_SEQ_EVENT_CONTROLLER =>
      [Z.land (control_param ev) 0x7f; Z.land (control_value ev) 0x7f]
  | SND_SEQ_EVENT_PGMCHANGE
  | SND_SEQ_EVENT_CHANPRESS => [Z.land (control_value ev) 0x7f]
  | SND_SEQ_EVENT_PITCHBEND =>
      [Z.land (control_value ev + 8192) 0x7f;
       Z.land ((control_value ev + 8192) ≫ 7) 0x7f]
  | SND_SEQ_EVENT_CONTROL14 =>
      [Z.land (control_param ev) 0x7f; Z.land (control_value ev ≫ 7) 0x7f] ++
      (if Z.land (control_param ev) 0x7f <? 0x20
       then [0; Z.land (control_param ev) 0x7f + 0x20; Z.land (control_value ev) 0x7f]
       else [])
  | SND_SEQ_EVENT_NONREGPARAM =>
      [0x62; Z.land (control_param ev) 0x7f;
       0; 0x63; Z.land (control_param ev ≫ 7) 0x7f;
       0; 0x06; Z.land (control_value ev ≫ 7) 0x7f;
       0; 0x26; Z.land (control_value ev) 0x7f]
  | SND_SEQ_EVENT_REGPARAM =>
      [0x64; Z.land (control_param ev) 0x7f;
       0; 0x65; Z.land (control_param ev ≫ 7) 0x7f;
       0; 0x06; Z.land (control_value ev ≫ 7) 0x7f;
       0; 0x26; Z.land (control_value ev) 0x7f]
  | SND_SEQ_EVENT_SYSEX
  | SND_SEQ_EVENT_other _ => []
  end.

(** ** The layout of the file *)

(** The position of the file is its end, as when it is only appended to. *)
Definition at_end (f : FILE) : Prop := pos f = Z.of_nat (length (contents f)).

(** [writes f f' bytes]: [f'] is [f] with [bytes] appended, positioned at its
    end. *)
Definition writes (f f' : FILE) (bytes : list Z) : Prop :=
  at_end f' /\ contents f' = contents f ++ bytes.

(** A big-endian number. *)
Definition be_decode (bytes : list Z) : Z :=
  fold_left (fun acc b => acc * 256 + b) bytes 0.

(** The four bytes that [write_header] and [update_length] make of a length. *)
Definition length_bytes (n : Z) : list Z :=
  [Z.land (n ≫ 24) 0xff; Z.land (n ≫ 16) 0xff; Z.land (n ≫ 8) 0xff; Z.land n 0xff].

(** The four bytes at the offset where [write_header] put the track length. *)
Definition length_field (g : globals) : list Z :=
  take 4 (drop (Z.to_nat (size_offset g)) (contents (file g))).

(** What follows the length field in the file: the track chunk's data. *)
Definition track_chunk_data (g : globals) : list Z :=
  drop (Z.to_nat (size_offset g) + 4) (contents (file g)).

(** What [write_track_end] writes when the queue is at [queue_tick]: the last
    delta time and the end-of-track event. *)
Definition track_end_bytes (queue_tick : Z) (t : smf_track) : list Z :=
  var_value_bytes (to_int (to_uint (to_int queue_tick - last_tick t))) ++
  [0xff; 0x2f; 0x00].

(** The time division that [write_header] computes. *)
Definition time_division (o : options) : Z :=
  if smpte_timing o then Z.lor (ticks o) ((0x100 - frames o) ≪ 8) else ticks o.

(** The header chunk and the tag of the track chunk, as [write_header] writes
    them: the tag MThd, the length 6, format 0, one track, the time division;
    and the tag MTrk. *)
Definition header_chunk (o : options) : list Z :=
  [0x4d; 0x54; 0x68; 0x64; 0; 0; 0; 6; 0; 0; 0; 1;
   to_uchar (time_division o ≫ 8); Z.land (time_division o) 0xff].

Definition track_tag : list Z := [0x4d; 0x54; 0x72; 0x6b].

(** ** Events and settings for the examples *)

Definition note_event (ty : snd_seq_event_type) (queue tick channel note velocity : Z)
  : snd_seq_event :=
  {| type := ty; ev_queue := queue; snd_seq_ev_is_tick := true;
     time_tick := tick; dest_port := 0;
     note_channel := channel; note_note := note; note_velocity := velocity;
     control_channel := 0; control_param := 0; control_value := 0; ext := [] |}.

Definition control_event (ty : snd_seq_event_type) (queue tick channel param value : Z)
  : snd_seq_event :=
  {| type := ty; ev_queue := queue; snd_seq_ev_is_tick := true;
     time_tick := tick; dest_port := 0;
     note_channel := 0; note_note := 0; note_velocity := 0;
     control_channel := channel; control_param := param; control_value := value;
     ext := [] |}.

Definition sysex_event (queue tick : Z) (payload : list Z) : snd_seq_event :=
  {| type := SND_SEQ_EVENT_SYSEX; ev_queue := queue; snd_seq_ev_is_tick := true;
     time_tick := tick; dest_port := 0;
     note_channel := 0; note_note := 0; note_velocity := 0;
     control_channel := 0; control_param := 0; control_value := 0;
     ext := payload |}.

Definition set_control_value (ev : snd_seq_event) (value : Z) : snd_seq_event :=
  {| type := type ev; ev_queue := ev_queue ev;
     snd_seq_ev_is_tick := snd_seq_ev_is_tick ev;
     time_tick := time_tick ev; dest_port := dest_port ev;
     note_channel := note_channel ev; note_note := note_note ev;
     note_velocity := note_velocity ev;
     control_channel := control_channel ev; control_param := control_param ev;
     control_value := value; ext := ext ev |}.

(** The default settings: 120 beats per minute, 384 ticks per beat, 4/4, and
    the queue that [create_queue] was given. *)
Definition default_options (queue : Z) : options :=
  {| queue := queue; smpte_timing := false; beats := 120; frames := 0;
     ticks := 384; ts_num := 4; ts_dd := 2 |}.

(** The globals before [write_header]: nothing recorded, nothing written. *)
Definition empty_globals : globals :=
  {| t_start := 0; track := init_tracks; file := fopen; size_offset := 0 |}.

(** A first event at tick 1 and a second one [2^31] ticks later. *)
Definition tick_one_event : snd_seq_event :=
  note_event SND_SEQ_EVENT_NOTEON 0 1 0 60 100.

Definition far_event : snd_seq_event :=
  note_event SND_SEQ_EVENT_NOTEON 0 (2 ^ 31 + 1) 0 60 100.

(** A note that starts at tick 0 and ends at tick 384. *)
Definition note_on_at_0 : snd_seq_event :=
  note_event SND_SEQ_EVENT_NOTEON 0 0 0 60 100.

Definition note_off_at_384 : snd_seq_event :=
  note_event SND_SEQ_EVENT_NOTEOFF 0 384 0 60 0.

(** ** The options of [main] *)

(** The calls of [fatal], by their message. *)
Inductive fatal_error :=
  | Only_1_port_allowed
  | Invalid_port
  | Invalid_time_signature
  | Invalid_tempo
  | Invalid_number_of_frames
  | Invalid_number_of_ticks
  | Invalid_timeout
  | Invalid_SMPTE_frames.

(** How a part of [main] ends: it goes on with a value, it calls [fatal], or
    (in the model only) a loop is cut short for lack of fuel. *)
Inductive result (A : Type) :=
  | Ok (a : A)
  | Fatal (e : fatal_error)
  | Out_of_fuel.

Arguments Ok {A} a.
Arguments Fatal {A} e.
Arguments Out_of_fuel {A}.

(** The globals that the options set. *)
Record settings := {
  arg_smpte_timing : bool;
  arg_beats : Z;
  arg_frames : Z;
  arg_ticks : Z;
  arg_timeout : Z;
  arg_ts_num : Z;
  arg_ts_div : Z;
  arg_ts_dd : Z;
  arg_got_a_port : bool;
  arg_do_list : bool
}.

(** Their initial values: [smpte_timing = 0], [beats = 120], [ticks = 0],
    [timeout = 0], the time signature 4/4, the others zeroed statics. *)
Definition initial_settings : settings :=
  {| arg_smpte_timing := false; arg_beats := 120; arg_frames := 0;
     arg_ticks := 0; arg_timeout := 0;
     arg_ts_num := 4; arg_ts_div := 4; arg_ts_dd := 2;
     arg_got_a_port := false; arg_do_list := false |}.

(** [for (ts_dd = 0; x > 1; x /= 2) ++ts_dd;] *)
Fixpoint ts_dd_loop (fuel : nat) (x ts_dd : Z) : option Z :=
  match fuel with
  | O => None
  | S fuel => if 1 <? x then ts_dd_loop fuel (x ÷ 2) (ts_dd + 1) else Some ts_dd
  end.

(* parses time signature specification *)
(** [x1] is the value of the first [strtol] and [sep] the character it stops
    at; [x2] is the value of the second [strtol], which starts behind [sep]. *)
Definition time_signature (x1 sep x2 : Z) (s : settings) : result settings :=
  if (x1 <? 1) || (64 <? x1) || negb (sep =? 58) then Fatal Invalid_time_signature else
  if (x2 <? 1) || (64 <? x2) then Fatal Invalid_time_signature else
  match ts_dd_loop (S (Z.to_nat x2)) x2 0 with
  | Some dd =>
      Ok {| arg_smpte_timing := arg_smpte_timing s; arg_beats := arg_beats s;
            arg_frames := arg_frames s; arg_ticks := arg_ticks s;
            arg_timeout := arg_timeout s;
            arg_ts_num := x1; arg_ts_div := x2; arg_ts_dd := dd;
            arg_got_a_port := arg_got_a_port s; arg_do_list := arg_do_list s |}
  | None => Out_of_fuel
  end.

(* parses one or more port addresses from the string *)
(** [comma] tells whether [strchr(port_name, ',')] finds a comma, [err] is
    what [snd_seq_parse_address] returns. *)
Definition parse_port (comma : bool) (err : Z) (s : settings) : result settings :=
  if comma then Fatal Only_1_port_allowed else
  if err <? 0 then Fatal Invalid_port else
  Ok {| arg_smpte_timing := arg_smpte_timing s; arg_beats := arg_beats s;
        arg_frames := arg_frames s; arg_ticks := arg_ticks s;
        arg_timeout := arg_timeout s;
        arg_ts_num := arg_ts_num s; arg_ts_div := arg_ts_div s;
        arg_ts_dd := arg_ts_dd s;
        arg_got_a_port := true; arg_do_list := arg_do_list s |}.

(** What [getopt_long] hands to the [switch] of [main]: the option, with what
    [atoi], [strtol] and the port parser make of its argument.  [opt_other]
    stands for every character without a [case] (['?'], ['s'], ['m']). *)
Inductive getopt_result :=
  | opt_h
  | opt_V
  | opt_l
  | opt_p (comma : bool) (err : Z)
  | opt_b (atoi : Z)
  | opt_f (atoi : Z)
  | opt_t (atoi : Z)
  | opt_d
  | opt_i (x1 sep x2 : Z)
  | opt_T (atoi : Z)
  | opt_other.

(** One round of a loop of [main]: go on, or [return] with a code. *)
Inductive step (A : Type) :=
  | Next (a : A)
  | Return (code : Z).

Arguments Next {A} a.
Arguments Return {A} code.

(** The [switch] of the option loop. *)
Definition handle_option (s : settings) (c : getopt_result) : result (step settings) :=
  match c with
  | opt_h => Ok (Return 0)
  | opt_V => Ok (Return 0)
  | opt_l =>
      Ok (Next {| arg_smpte_timing := arg_smpte_timing s; arg_beats := arg_beats s;
                  arg_frames := arg_frames s; arg_ticks := arg_ticks s;
                  arg_timeout := arg_timeout s;
                  arg_ts_num := arg_ts_num s; arg_ts_div := arg_ts_div s;
                  arg_ts_dd := arg_ts_dd s;
                  arg_got_a_port := arg_got_a_port s; arg_do_list := true |})
  | opt_p comma err =>
      match parse_port comma err s with
      | Ok s => Ok (Next s)
      | Fatal e => Fatal e
      | Out_of_fuel => Out_of_fuel
      end
  | opt_b beats =>
      if (beats <? 4) || (6000 <? beats) then Fatal Invalid_tempo else
      Ok (Next {| arg_smpte_timing := false; arg_beats := beats;
                  arg_frames := arg_frames s; arg_ticks := arg_ticks s;
                  arg_timeout := arg_timeout s;
                  arg_ts_num := arg_ts_num s; arg_ts_div := arg_ts_div s;
                  arg_ts_dd := arg_ts_dd s;
                  arg_got_a_port := arg_got_a_port s; arg_do_list := arg_do_list s |})
  | opt_f frames =>
      if negb (frames =? 24) && negb (frames =? 25) &&
         negb (frames =? 29) && negb (frames =? 30)
      then Fatal Invalid_number_of_frames else
      Ok (Next {| arg_smpte_timing := true; arg_beats := arg_beats s;
                  arg_frames := frames; arg_ticks := arg_ticks s;
                  arg_timeout := arg_timeout s;
                  arg_ts_num := arg_ts_num s; arg_ts_div := arg_ts_div s;
                  arg_ts_dd := arg_ts_dd s;
                  arg_got_a_port := arg_got_a_port s; arg_do_list := arg_do_list s |})
  | opt_t ticks =>
      if (ticks <? 1) || (0x7fff <? ticks) then Fatal Invalid_number_of_ticks else
      Ok (Next {| arg_smpte_timing := arg_smpte_timing s; arg_beats := arg_beats s;
                  arg_frames := arg_frames s; arg_ticks := ticks;
                  arg_timeout := arg_timeout s;
                  arg_ts_num := arg_ts_num s; arg_ts_div := arg_ts_div s;
                  arg_ts_dd := arg_ts_dd s;
                  arg_got_a_port := arg_got_a_port s; arg_do_list := arg_do_list s |})
  | opt_d => Ok (Next s)
  | opt_i x1 sep x2 =>
      match time_signature x1 sep x2 s with
      | Ok s => Ok (Next s)
      | Fatal e => Fatal e
      | Out_of_fuel => Out_of_fuel
      end
  | opt_T timeout =>
      if timeout <? 0 then Fatal Invalid_timeout else
      Ok (Next {| arg_smpte_timing := arg_smpte_timing s; arg_beats := arg_beats s;
                  arg_frames := arg_frames s; arg_ticks := arg_ticks s;
                  arg_timeout := timeout;
                  arg_ts_num := arg_ts_num s; arg_ts_div := arg_ts_div s;
                  arg_ts_dd := arg_ts_dd s;
                  arg_got_a_port := arg_got_a_port s; arg_do_list := arg_do_list s |})
  | opt_other => Ok (Return 1)
  end.

(** The option loop: [opts] are the results of [getopt_long] until it
    returns -1. *)
Fixpoint option_loop (opts : list getopt_result) (s : settings)
  : result (step settings) :=
  match opts with
  | [] => Ok (Next s)
  | c :: opts =>
      match handle_option s c with
      | Ok (Next s) => option_loop opts s
      | r => r
      end
  end.

(** What follows the loop, up to [init_tracks]: the listing, the checks for
    a port and a file name ([has_file] is [optind < argc]) and the default
    number of ticks. *)
Definition after_options (has_file : bool) (s : settings) : step settings :=
  if arg_do_list s then Return 0 else
  if negb (arg_got_a_port s) then Return 1 else
  let ticks := arg_ticks s in
  let ticks :=
    if ticks =? 0 then (if arg_smpte_timing s then 40 else 384) else ticks in
  let ticks :=
    if arg_smpte_timing s && (0xff <? ticks) then 0xff else ticks in
  if negb has_file then Return 1 else
  Next {| arg_smpte_timing := arg_smpte_timing s; arg_beats := arg_beats s;
          arg_frames := arg_frames s; arg_ticks := ticks;
          arg_timeout := arg_timeout s;
          arg_ts_num := arg_ts_num s; arg_ts_div := arg_ts_div s;
          arg_ts_dd := arg_ts_dd s;
          arg_got_a_port := arg_got_a_port s; arg_do_list := arg_do_list s |}.

(** The tempo and the resolution that [create_queue] gives the queue: the
    arguments of [snd_seq_queue_tempo_set_tempo] and
    [snd_seq_queue_tempo_set_ppq]. *)
Definition create_queue_tempo (s : settings) : result (Z * Z) :=
  if negb (arg_smpte_timing s) then
    Ok (60000000 ÷ arg_beats s, arg_ticks s)
  else
    (* ALSA doesn't know about the SMPTE time divisions, so
       we pretend to have a musical tempo with the equivalent
       number of ticks/s. *)
    if arg_frames s =? 24 then Ok (500000, 12 * arg_ticks s)
    else if arg_frames s =? 25 then Ok (400000, 10 * arg_ticks s)
    else if arg_frames s =? 29 then Ok (100000000, 2997 * arg_ticks s)
    else if arg_frames s =? 30 then Ok (500000, 15 * arg_ticks s)
    else Fatal Invalid_SMPTE_frames.

(** The settings as the recording uses them, with the queue that
    [create_queue] allocated. *)
Definition recording_options (queue : Z) (s : settings) : options :=
  {| queue := queue; smpte_timing := arg_smpte_timing s; beats := arg_beats s;
     frames := arg_frames s; ticks := arg_ticks s;
     ts_num := arg_ts_num s; ts_dd := arg_ts_dd s |}.

(** What the option checks keep true of the settings while the options are
    read: the number of ticks is still unset (0) or in range. *)
Definition settings_checked (s : settings) : Prop :=
  4 <= arg_beats s <= 6000 /\
  (arg_ticks s = 0 \/ 1 <= arg_ticks s <= 0x7fff) /\
  (arg_smpte_timing s = true -> In (arg_frames s) [24; 25; 29; 30]) /\
  1 <= arg_ts_num s <= 64 /\ 0 <= arg_ts_dd s <= 6 /\
  0 <= arg_timeout s.

(** * Properties *)

(** ** Machine integers *)

Lemma to_uchar_small z : 0 <= z < 256 -> to_uchar z = z.
Proof. intros H. unfold to_uchar. apply Z.mod_small. exact H. Qed.

Lemma to_uchar_range z : 0 <= to_uchar z < 256.
Proof. unfold to_uchar. apply Z.mod_pos_bound. lia. Qed.

Lemma to_int_small z : - 2 ^ 31 <= z < 2 ^ 31 -> to_int z = z.
Proof.
  intros H. unfold to_int. rewrite Z.mod_small; lia.
Qed.

Lemma to_int_to_uint z : to_int (to_uint z) = to_int z.
Proof.
  unfold to_int, to_uint.
  rewrite Zplus_mod_idemp_l. reflexivity.
Qed.

Lemma to_int_range z : - 2 ^ 31 <= to_int z < 2 ^ 31.
Proof.
  unfold to_int.
  pose proof (Z.mod_pos_bound (z + 2 ^ 31) (2 ^ 32)). lia.
Qed.

Lemma land_7f_range z : 0 <= Z.land z 0x7f < 128.
Proof.
  change 0x7f with (Z.ones 7). rewrite Z.land_ones by lia.
  apply Z.mod_pos_bound. lia.
Qed.

Lemma land_low_range z n : 0 <= n -> 0 <= Z.land z (Z.ones n) < 2 ^ n.
Proof.
  intros Hn. rewrite Z.land_ones by lia.
  apply Z.mod_pos_bound. apply Z.pow_pos_nonneg; lia.
Qed.

Lemma to_uchar_land z m : 0 <= m < 256 -> to_uchar (Z.land z m) = Z.land z m.
Proof.
  intros Hm. unfold to_uchar. change 256 with (2 ^ 8).
  rewrite <- Z.land_ones by lia.
  rewrite <- Z.land_assoc. f_equal.
  rewrite Z.land_ones by lia. apply Z.mod_small. exact Hm.
Qed.

Lemma to_uchar_lor a b :
  to_uchar a = a -> to_uchar b = b -> to_uchar (Z.lor a b) = Z.lor a b.
Proof.
  unfold to_uchar. change 256 with (2 ^ 8).
  rewrite <- !Z.land_ones by lia.
  intros Ha Hb. rewrite Z.land_lor_distr_l. congruence.
Qed.

Lemma to_uchar_vlq_high z : to_uchar (Z.lor 0x80 (Z.land z 0x7f)) = Z.lor 0x80 (Z.land z 0x7f).
Proof. apply to_uchar_lor; [reflexivity | apply to_uchar_land; lia]. Qed.

Lemma to_uchar_vlq_top z : to_uchar (Z.lor 0x80 (Z.land z 0x03)) = Z.lor 0x80 (Z.land z 0x03).
Proof. apply to_uchar_lor; [reflexivity | apply to_uchar_land; lia]. Qed.

Lemma to_uchar_status cmd ch : 0 <= cmd < 256 ->
  to_uchar (Z.lor cmd (Z.land ch 0xf)) = Z.lor cmd (Z.land ch 0xf).
Proof.
  intros H. apply to_uchar_lor; [apply to_uchar_small; exact H | apply to_uchar_land; lia].
Qed.

(** ** The chain of buffers *)

Lemma init_tracks_wf : track_wf init_tracks.
Proof.
  split; simpl; try lia.
  - constructor; [| constructor]. apply length_replicate.
  - unfold BUFFER_SIZE. lia.
Qed.

Lemma calloc_buffer_length : length calloc_buffer = Z.to_nat BUFFER_SIZE.
Proof. apply length_replicate. Qed.

(** A well-formed chain is a run of full buffers followed by the current one. *)
Lemma track_wf_split t :
  track_wf t ->
  exists fulls cur,
    first_buf t = fulls ++ [cur] /\ length fulls = cur_buf t /\
    Forall (fun b : list Z => length b = Z.to_nat BUFFER_SIZE) fulls /\
    length cur = Z.to_nat BUFFER_SIZE.
Proof.
  intros [Hcur Hall _ _].
  destruct (first_buf t !! cur_buf t) as [cur |] eqn:Hlk.
  - exists (take (cur_buf t) (first_buf t)), cur.
    pose proof (take_drop_middle _ _ _ Hlk) as Hmid.
    rewrite (drop_ge (first_buf t) (S (cur_buf t))) in Hmid by lia.
    repeat split.
    + symmetry. exact Hmid.
    + rewrite length_take. lia.
    + apply Forall_take. exact Hall.
    + eapply (Forall_lookup_1 _ _ _ _ Hall). exact Hlk.
  - apply lookup_ge_None in Hlk. lia.
Qed.

Lemma chunks_split t fulls cur :
  first_buf t = fulls ++ [cur] -> length fulls = cur_buf t ->
  Forall (fun b : list Z => length b = Z.to_nat BUFFER_SIZE) fulls ->
  chunks t = fulls ++ [take (Z.to_nat (cur_buf_size t)) cur].
Proof.
  intros Hbufs Hlen Hall. unfold chunks. rewrite Hbufs, imap_app. f_equal.
  - rewrite (imap_ext _ (fun _ b => b)).
    + clear. induction fulls as [| b l IH]; simpl; [reflexivity |].
      f_equal. exact IH.
    + intros i b Hi. simpl. unfold chunk_size.
      pose proof (lookup_lt_Some _ _ _ Hi) as Hlt.
      destruct (Nat.eqb_spec i (cur_buf t)) as [-> | _]; [lia |].
      apply take_ge. rewrite (Forall_lookup_1 _ _ _ _ Hall Hi). lia.
  - simpl. unfold chunk_size. rewrite Nat.add_0_r, Hlen, Nat.eqb_refl. reflexivity.
Qed.

Lemma concat_snoc (l : list (list Z)) (c : list Z) : concat (l ++ [c]) = concat l ++ c.
Proof. rewrite concat_app. simpl. rewrite app_nil_r. reflexivity. Qed.

(** [add_byte] keeps the shape of the track and puts its byte, converted to
    [unsigned char], behind the data. *)
Lemma add_byte_spec t byte :
  track_wf t ->
  track_wf (add_byte t byte) /\
  track_data (add_byte t byte) = track_data t ++ [to_uchar byte].
Proof.
  intros Hwf.
  destruct (track_wf_split t Hwf) as (fulls & cur & Hbufs & Hlen & Hall & Hcurlen).
  pose proof Hwf as [Hcur Hallb Hsz Hsize].
  unfold track_data. rewrite (chunks_split t fulls cur Hbufs Hlen Hall).
  unfold add_byte.
  destruct (Z.leb_spec BUFFER_SIZE (cur_buf_size t)) as [Hfull | Hroom].
  - (* a new buffer is linked behind the current one *)
    assert (cur_buf_size t = BUFFER_SIZE) as Hn by lia.
    assert (take (S (cur_buf t)) (first_buf t) = fulls ++ [cur]) as Htake.
    { rewrite Hbufs. apply take_ge. rewrite length_app. simpl. lia. }
    cbn [size cur_buf_size cur_buf last_tick last_command first_buf].
    rewrite Htake.
    assert (alter (fun b : list Z => <[Z.to_nat 0 := to_uchar byte]> b)
              (S (cur_buf t)) ((fulls ++ [cur]) ++ [calloc_buffer])
            = (fulls ++ [cur]) ++ [<[0%nat := to_uchar byte]> calloc_buffer]) as Halt.
    { rewrite alter_app_r_alt by (rewrite length_app; simpl; lia).
      rewrite length_app. simpl.
      replace (S (cur_buf t) - (length fulls + 1))%nat with 0%nat by lia.
      reflexivity. }
    rewrite Halt. split.
    + split; cbn [size cur_buf_size cur_buf last_tick last_command first_buf].
      * rewrite !length_app. simpl. lia.
      * apply Forall_app. split.
        { apply Forall_app. split; [exact Hall |]. constructor; [exact Hcurlen | constructor]. }
        constructor; [| constructor].
        rewrite length_insert. apply calloc_buffer_length.
      * unfold BUFFER_SIZE. lia.
      * rewrite Hsize, Hn. lia.
    + erewrite chunks_split;
        [ | cbn [first_buf]; reflexivity
          | cbn [cur_buf]; rewrite length_app; simpl; lia
          | apply Forall_app; split; [exact Hall | constructor; [exact Hcurlen | constructor]] ].
      cbn [cur_buf_size]. rewrite !concat_snoc, Hn.
      rewrite (take_ge cur) by lia.
      rewrite <- !app_assoc. do 2 f_equal.
  - (* room in the current buffer *)
    assert (alter (fun b : list Z => <[Z.to_nat (cur_buf_size t) := to_uchar byte]> b)
              (cur_buf t) (first_buf t)
            = fulls ++ [<[Z.to_nat (cur_buf_size t) := to_uchar byte]> cur]) as Halt.
    { rewrite Hbufs, alter_app_r_alt by lia.
      replace (cur_buf t - length fulls)%nat with 0%nat by lia. reflexivity. }
    rewrite Halt. split.
    + split; cbn [size cur_buf_size cur_buf last_tick last_command first_buf].
      * rewrite length_app. simpl. lia.
      * apply Forall_app. split; [exact Hall |]. constructor; [| constructor].
        rewrite length_insert. exact Hcurlen.
      * lia.
      * rewrite Hsize. lia.
    + erewrite chunks_split;
        [ | cbn [first_buf]; reflexivity | cbn [cur_buf]; exact Hlen | exact Hall ].
      cbn [cur_buf_size]. rewrite !concat_snoc.
      rewrite <- app_assoc. f_equal.
      replace (Z.to_nat (cur_buf_size t + 1)) with (S (Z.to_nat (cur_buf_size t))) by lia.
      rewrite (take_S_r _ _ (to_uchar byte)).
      * rewrite take_insert_ge by lia. reflexivity.
      * apply list_lookup_insert_eq. lia.
Qed.

Lemma add_byte_wf t byte : track_wf t -> track_wf (add_byte t byte).
Proof. intros H. apply add_byte_spec. exact H. Qed.

Lemma add_byte_data t byte :
  track_wf t -> track_data (add_byte t byte) = track_data t ++ [to_uchar byte].
Proof. intros H. apply add_byte_spec. exact H. Qed.

Lemma add_byte_size t byte : size (add_byte t byte) = size t + 1.
Proof. unfold add_byte. destruct (BUFFER_SIZE <=? cur_buf_size t); reflexivity. Qed.

Lemma add_byte_last_tick t byte : last_tick (add_byte t byte) = last_tick t.
Proof. unfold add_byte. destruct (BUFFER_SIZE <=? cur_buf_size t); reflexivity. Qed.

Lemma add_byte_last_command t byte : last_command (add_byte t byte) = last_command t.
Proof. unfold add_byte. destruct (BUFFER_SIZE <=? cur_buf_size t); reflexivity. Qed.

(** ** Appending to the track *)

Lemma appends_refl t : track_wf t -> appends t t [].
Proof.
  intros H. split; [exact H | split; [| simpl; lia]].
  rewrite app_nil_r. reflexivity.
Qed.

Lemma appends_trans t1 t2 t3 b1 b2 :
  appends t1 t2 b1 -> appends t2 t3 b2 -> appends t1 t3 (b1 ++ b2).
Proof.
  intros (_ & Hd1 & Hs1) (Hwf & Hd2 & Hs2). split; [exact Hwf | split].
  - rewrite Hd2, Hd1, app_assoc. reflexivity.
  - rewrite Hs2, Hs1, length_app. lia.
Qed.

Lemma appends_wf t t' bytes : appends t t' bytes -> track_wf t'.
Proof. intros H. apply H. Qed.

Lemma appends_eq t t' b1 b2 : b1 = b2 -> appends t t' b1 -> appends t t' b2.
Proof. intros ->. trivial. Qed.

Lemma add_byte_appends t byte :
  track_wf t -> appends t (add_byte t byte) [to_uchar byte].
Proof.
  intros H. split; [| split].
  - apply add_byte_wf. exact H.
  - apply add_byte_data. exact H.
  - rewrite add_byte_size. simpl. lia.
Qed.

Lemma add_byte_appends_small t byte :
  track_wf t -> 0 <= byte < 256 -> appends t (add_byte t byte) [byte].
Proof.
  intros H Hb. rewrite <- (to_uchar_small byte Hb) at 2.
  apply add_byte_appends. exact H.
Qed.

Lemma set_last_tick_appends t tick : track_wf t -> appends t (set_last_tick t tick) [].
Proof.
  intros [H1 H2 H3 H4]. split; [| split].
  - split; simpl; assumption.
  - unfold track_data. rewrite app_nil_r. reflexivity.
  - simpl. lia.
Qed.

Lemma set_last_command_appends t cmd :
  track_wf t -> appends t (set_last_command t cmd) [].
Proof.
  intros [H1 H2 H3 H4]. split; [| split].
  - split; simpl; assumption.
  - unfold track_data. rewrite app_nil_r. reflexivity.
  - simpl. lia.
Qed.

(** The loop of the SysEx case: the payload goes in byte by byte. *)
Lemma fold_add_byte_appends bytes : forall t,
  track_wf t -> appends t (fold_left add_byte bytes t) (map to_uchar bytes).
Proof.
  induction bytes as [| b bytes IH]; intros t Hwf; simpl.
  - apply appends_refl. exact Hwf.
  - change (to_uchar b :: map to_uchar bytes) with ([to_uchar b] ++ map to_uchar bytes).
    eapply appends_trans.
    + apply add_byte_appends. exact Hwf.
    + apply IH. apply add_byte_wf. exact Hwf.
Qed.

Lemma fold_add_byte_last_tick bytes : forall t,
  last_tick (fold_left add_byte bytes t) = last_tick t.
Proof.
  induction bytes as [| b bytes IH]; intros t; simpl; [reflexivity |].
  rewrite IH. apply add_byte_last_tick.
Qed.

Lemma fold_add_byte_last_command bytes : forall t,
  last_command (fold_left add_byte bytes t) = last_command t.
Proof.
  induction bytes as [| b bytes IH]; intros t; simpl; [reflexivity |].
  rewrite IH. apply add_byte_last_command.
Qed.

(** ** Variable-length quantities *)

Lemma var_value_appends t v :
  track_wf t -> appends t (var_value t v) (vlq_ladder v).
Proof.
  intros Hwf. unfold var_value, vlq_ladder.
  assert (forall (c : bool) t0 z, track_wf t0 -> to_uchar z = z ->
            appends t0 (if c then add_byte t0 z else t0) (if c then [z] else [])) as Hstep.
  { intros c t0 z H0 Hz. destruct c.
    - rewrite <- Hz at 2. apply add_byte_appends. exact H0.
    - apply appends_refl. exact H0. }
  eapply appends_trans; [apply Hstep; [exact Hwf | apply to_uchar_vlq_top] |].
  eapply appends_trans;
    [apply Hstep; [eapply appends_wf, Hstep; [exact Hwf | apply to_uchar_vlq_top]
                  | apply to_uchar_vlq_high] |].
  set (t1 := if 1 ≪ 28 <=? v then add_byte t _ else t).
  assert (track_wf t1) as H1
    by (eapply appends_wf, Hstep; [exact Hwf | apply to_uchar_vlq_top]).
  set (t2 := if 1 ≪ 21 <=? v then add_byte t1 _ else t1).
  assert (track_wf t2) as H2
    by (eapply appends_wf, Hstep; [exact H1 | apply to_uchar_vlq_high]).
  eapply appends_trans; [apply Hstep; [exact H2 | apply to_uchar_vlq_high] |].
  set (t3 := if 1 ≪ 14 <=? v then add_byte t2 _ else t2).
  assert (track_wf t3) as H3
    by (eapply appends_wf, Hstep; [exact H2 | apply to_uchar_vlq_high]).
  eapply appends_trans; [apply Hstep; [exact H3 | apply to_uchar_vlq_high] |].
  set (t4 := if 1 ≪ 7 <=? v then add_byte t3 _ else t3).
  assert (track_wf t4) as H4
    by (eapply appends_wf, Hstep; [exact H3 | apply to_uchar_vlq_high]).
  rewrite <- (to_uchar_land v 0x7f) at 2 by lia.
  apply add_byte_appends. exact H4.
Qed.

Lemma var_value_last_tick t v : last_tick (var_value t v) = last_tick t.
Proof.
  unfold var_value.
  repeat match goal with |- context [if ?c then _ else _] => destruct c end;
    rewrite ?add_byte_last_tick; reflexivity.
Qed.

Lemma var_value_last_command t v : last_command (var_value t v) = last_command t.
Proof.
  unfold var_value.
  repeat match goal with |- context [if ?c then _ else _] => destruct c end;
    rewrite ?add_byte_last_command; reflexivity.
Qed.

(** What [var_value] appends does not depend on the track it appends to. *)
Lemma var_value_bytes_ladder v : var_value_bytes v = vlq_ladder v.
Proof.
  unfold var_value_bytes.
  destruct (var_value_appends init_tracks v init_tracks_wf) as (_ & Hd & _).
  rewrite Hd. reflexivity.
Qed.

Lemma var_value_appends_bytes t v :
  track_wf t -> appends t (var_value t v) (var_value_bytes v).
Proof. rewrite var_value_bytes_ladder. apply var_value_appends. Qed.

Lemma vlq_ladder_length v :
  length (vlq_ladder v) =
  if 1 ≪ 28 <=? v then 5%nat
  else if 1 ≪ 21 <=? v then 4%nat
  else if 1 ≪ 14 <=? v then 3%nat
  else if 1 ≪ 7 <=? v then 2%nat else 1%nat.
Proof.
  unfold vlq_ladder. change (1 ≪ 28) with 268435456.
  change (1 ≪ 21) with 2097152. change (1 ≪ 14) with 16384. change (1 ≪ 7) with 128.
  destruct (Z.leb_spec 268435456 v), (Z.leb_spec 2097152 v),
    (Z.leb_spec 16384 v), (Z.leb_spec 128 v); simpl; try reflexivity; lia.
Qed.

(** The boundary values above are the whole story below [2^28]: there the
    ladder is the variable-length quantity of the file format, and reading it
    back gives the value. *)
Lemma vlq_ladder_canonical v : 0 <= v < 2 ^ 28 -> vlq_ladder v = vlq_canonical v.
Proof.
  intros Hv. unfold vlq_ladder, vlq_canonical.
  change (1 ≪ 28) with (2 ^ 28). change (1 ≪ 21) with (2 ^ 21).
  change (1 ≪ 14) with (2 ^ 14). change (1 ≪ 7) with (2 ^ 7).
  destruct (Z.leb_spec (2 ^ 28) v) as [? | _]; [lia |].
  assert (forall k, 0 < k -> 2 ^ (7 * k) <= v < 2 ^ (7 * (k + 1)) ->
            Z.log2 v / 7 = k) as Hgroups.
  { intros k Hk [Hlo Hhi].
    assert (0 < v) by (pose proof (Z.pow_pos_nonneg 2 (7 * k)); lia).
    apply Z.log2_le_pow2 in Hlo; [| lia].
    apply Z.log2_lt_pow2 in Hhi; [| lia].
    symmetry. apply (Z.div_unique _ 7 k (Z.log2 v - 7 * k)); lia. }
  destruct (Z.leb_spec (2 ^ 21) v).
  { rewrite (Hgroups 3) by lia.
    destruct (Z.leb_spec (2 ^ 14) v); [| lia].
    destruct (Z.leb_spec (2 ^ 7) v); [| lia]. reflexivity. }
  destruct (Z.leb_spec (2 ^ 14) v).
  { rewrite (Hgroups 2) by lia.
    destruct (Z.leb_spec (2 ^ 7) v); [| lia]. reflexivity. }
  destruct (Z.leb_spec (2 ^ 7) v).
  { rewrite (Hgroups 1) by lia. reflexivity. }
  assert (Z.log2 v / 7 = 0) as ->; [| reflexivity].
  destruct (Z.eq_dec v 0) as [-> | Hnz]; [reflexivity |].
  apply Z.div_small. split; [apply Z.log2_nonneg |].
  apply Z.log2_lt_pow2; lia.
Qed.

Lemma land_vlq_high z : Z.land (Z.lor 0x80 (Z.land z 0x7f)) 0x7f = Z.land z 0x7f.
Proof.
  rewrite Z.land_lor_distr_l, <- Z.land_assoc.
  change (Z.land 0x80 0x7f) with 0. change (Z.land 0x7f 0x7f) with 0x7f.
  apply Z.lor_0_l.
Qed.

Lemma vlq_decode_ladder v : 0 <= v < 2 ^ 28 -> vlq_decode (vlq_ladder v) = v.
Proof.
  intros Hv. unfold vlq_ladder, vlq_decode.
  change (1 ≪ 28) with (2 ^ 28). change (1 ≪ 21) with (2 ^ 21).
  change (1 ≪ 14) with (2 ^ 14). change (1 ≪ 7) with (2 ^ 7).
  destruct (Z.leb_spec (2 ^ 28) v) as [? | _]; [lia |].
  assert (Z.land (Z.land v 0x7f) 0x7f = v mod 128) as H0.
  { rewrite <- Z.land_assoc. change (Z.land 0x7f 0x7f) with (Z.ones 7).
    rewrite Z.land_ones by lia. reflexivity. }
  assert (forall k, 0 <= k -> Z.land (v ≫ k) 0x7f = (v / 2 ^ k) mod 128) as Hk.
  { intros k Hk. rewrite Z.shiftr_div_pow2 by lia.
    change 0x7f with (Z.ones 7). rewrite Z.land_ones by lia. reflexivity. }
  assert (v / 2 ^ 14 = v / 2 ^ 7 / 2 ^ 7) as H14
    by (rewrite Z.div_div by lia; reflexivity).
  assert (v / 2 ^ 21 = v / 2 ^ 7 / 2 ^ 7 / 2 ^ 7) as H21
    by (rewrite !Z.div_div by lia; reflexivity).
  destruct (Z.leb_spec (2 ^ 21) v), (Z.leb_spec (2 ^ 14) v), (Z.leb_spec (2 ^ 7) v);
    try lia; simpl fold_left;
    rewrite ?land_vlq_high, H0, ?Hk, ?H14, ?H21 by lia;
    change (2 ^ 7) with 128 in *; change (2 ^ 14) with 16384 in *;
    change (2 ^ 21) with 2097152 in *; change (2 ^ 28) with 268435456 in *;
    Z.div_mod_to_equations; lia.
Qed.

(** ** Delta times and running status *)

Lemma delta_time_clamp t_start t ev :
  delta_time t_start t ev =
  set_last_tick (var_value t (Z.max 0 (tick_diff t (event_tick t_start ev))))
    (event_tick t_start ev).
Proof.
  unfold delta_time. cbv zeta.
  destruct (Z.ltb_spec (tick_diff t (event_tick t_start ev)) 0) as [Hneg | Hpos].
  - rewrite Z.max_l by lia. reflexivity.
  - rewrite Z.max_r by lia. reflexivity.
Qed.

Lemma delta_time_last_tick t_start t ev :
  last_tick (delta_time t_start t ev) = event_tick t_start ev.
Proof. reflexivity. Qed.

Lemma set_last_tick_last_command t tick :
  last_command (set_last_tick t tick) = last_command t.
Proof. reflexivity. Qed.

Lemma set_last_command_last_tick t cmd :
  last_tick (set_last_command t cmd) = last_tick t.
Proof. reflexivity. Qed.

Lemma delta_time_last_command t_start t ev :
  last_command (delta_time t_start t ev) = last_command t.
Proof.
  rewrite delta_time_clamp, set_last_tick_last_command.
  apply var_value_last_command.
Qed.

Lemma command_last_tick t cmd : last_tick (command t cmd) = last_tick t.
Proof.
  unfold command. cbv zeta. rewrite set_last_command_last_tick.
  destruct (negb _); [apply add_byte_last_tick | reflexivity].
Qed.

Lemma command_last_command t cmd :
  last_command (command t cmd) = if to_uchar cmd <? 0xf0 then to_uchar cmd else 0.
Proof. reflexivity. Qed.

Lemma tick_diff_same t tick : last_tick t = tick -> tick_diff t tick = 0.
Proof. intros <-. unfold tick_diff. rewrite Z.sub_diag. reflexivity. Qed.

(** The appending steps, in the form in which they chain. *)
Lemma appends_add_byte t x byte bytes :
  appends t x bytes -> appends t (add_byte x byte) (bytes ++ [to_uchar byte]).
Proof.
  intros H. eapply appends_trans; [exact H |].
  apply add_byte_appends. eapply appends_wf, H.
Qed.

Lemma appends_var_value t x v bytes :
  appends t x bytes -> appends t (var_value x v) (bytes ++ var_value_bytes v).
Proof.
  intros H. eapply appends_trans; [exact H |].
  apply var_value_appends_bytes. eapply appends_wf, H.
Qed.

Lemma appends_fold_add_byte t x payload bytes :
  appends t x bytes ->
  appends t (fold_left add_byte payload x) (bytes ++ map to_uchar payload).
Proof.
  intros H. eapply appends_trans; [exact H |].
  apply fold_add_byte_appends. eapply appends_wf, H.
Qed.

Lemma appends_delta_time t_start t x ev bytes :
  appends t x bytes ->
  appends t (delta_time t_start x ev)
    (bytes ++ var_value_bytes (Z.max 0 (tick_diff x (event_tick t_start ev)))).
Proof.
  intros H. rewrite delta_time_clamp.
  rewrite <- (app_nil_r (_ ++ _)).
  eapply appends_trans; [apply appends_var_value, H |].
  apply set_last_tick_appends. eapply appends_wf, appends_var_value, H.
Qed.

Lemma appends_command t x cmd bytes :
  appends t x bytes ->
  appends t (command x cmd)
    (bytes ++ if to_uchar cmd =? last_command x then [] else [to_uchar cmd]).
Proof.
  intros H. unfold command. cbv zeta.
  rewrite <- (app_nil_r (_ ++ _)).
  eapply appends_trans; [| apply set_last_command_appends].
  - destruct (to_uchar cmd =? last_command x); cbn [negb].
    + rewrite app_nil_r. exact H.
    + rewrite <- (to_uchar_small (to_uchar cmd)) at 2 by apply to_uchar_range.
      apply appends_add_byte, H.
  - destruct (to_uchar cmd =? last_command x); cbn [negb].
    + eapply appends_wf, H.
    + eapply appends_wf, appends_add_byte, H.
Qed.

(** ** Translating one event *)

Lemma record_event_filtered queue ev g :
  ev_queue ev <> queue \/ snd_seq_ev_is_tick ev = false ->
  record_event queue ev g = g.
Proof.
  intros H. unfold record_event.
  destruct (Z.eqb_spec (ev_queue ev) queue) as [Hq | Hq]; cbn [negb orb]; [| reflexivity].
  destruct H as [H | H]; [contradiction |]. rewrite H. reflexivity.
Qed.

Lemma status_range cmd ch :
  In cmd [0x80; 0x90; 0xa0; 0xb0; 0xc0; 0xd0; 0xe0] ->
  0x80 <= Z.lor cmd (Z.land ch 0xf) < 0xf0.
Proof.
  intros Hcmd.
  assert (0 <= Z.land ch 0xf < 16) as Hn by (apply (land_low_range ch 4); lia).
  assert (forall n, 0 <= n < 16 -> In n [0;1;2;3;4;5;6;7;8;9;10;11;12;13;14;15]) as Hall.
  { intros n Hr. simpl. lia. }
  apply Hall in Hn. revert Hn. generalize (Z.land ch 0xf). intros n Hn.
  simpl in Hcmd, Hn.
  repeat (destruct Hcmd as [<- | Hcmd]; [| ]); try contradiction;
    repeat (destruct Hn as [<- | Hn]; [vm_compute; split; [discriminate | reflexivity] |]);
    contradiction.
Qed.

Lemma message_status_range ev st :
  message_status ev = Some st -> 0x80 <= st < 0xf0.
Proof.
  unfold message_status. intros H.
  destruct (type ev); inversion H; subst; apply status_range; simpl; tauto.
Qed.

Lemma message_status_uchar ev st : message_status ev = Some st -> to_uchar st = st.
Proof.
  intros H. apply message_status_range in H. apply to_uchar_small. lia.
Qed.

(** Follows a nest of appending calls from the outermost one inwards. *)
Ltac appends_chain :=
  lazymatch goal with
  | |- appends _ (add_byte _ _) _ => simple eapply appends_add_byte; appends_chain
  | |- appends _ (var_value _ _) _ => simple eapply appends_var_value; appends_chain
  | |- appends _ (fold_left add_byte _ _) _ =>
      simple eapply appends_fold_add_byte; appends_chain
  | |- appends _ (delta_time _ _ _) _ => simple eapply appends_delta_time; appends_chain
  | |- appends _ (command _ _) _ => simple eapply appends_command; appends_chain
  | |- appends ?t ?t _ => simple apply appends_refl
  end.

Lemma track_set_track g t : track (set_track g t) = t.
Proof. reflexivity. Qed.

Lemma var_value_bytes_0 : var_value_bytes 0 = [0].
Proof. vm_compute. reflexivity. Qed.

Lemma to_uchar_land_7f_plus z : to_uchar (Z.land z 0x7f + 0x20) = Z.land z 0x7f + 0x20.
Proof. apply to_uchar_small. pose proof (land_7f_range z). lia. Qed.

Lemma tick_diff_add_byte t byte tick : tick_diff (add_byte t byte) tick = tick_diff t tick.
Proof. unfold tick_diff. rewrite add_byte_last_tick. reflexivity. Qed.

Lemma tick_diff_command t cmd tick : tick_diff (command t cmd) tick = tick_diff t tick.
Proof. unfold tick_diff. rewrite command_last_tick. reflexivity. Qed.

Lemma tick_diff_delta_time t_start t ev :
  tick_diff (delta_time t_start t ev) (event_tick t_start ev) = 0.
Proof. apply tick_diff_same. reflexivity. Qed.

Create Rewrite HintDb track.
#[local] Hint Rewrite add_byte_last_tick add_byte_last_command
  var_value_last_tick var_value_last_command
  delta_time_last_tick delta_time_last_command
  command_last_tick command_last_command
  fold_add_byte_last_tick fold_add_byte_last_command
  tick_diff_add_byte tick_diff_command tick_diff_delta_time
  var_value_bytes_0 to_uchar_land_7f_plus : track.

Ltac bytes_eq :=
  unfold MIDI_CMD_NOTE_OFF, MIDI_CMD_NOTE_ON, MIDI_CMD_NOTE_PRESSURE,
    MIDI_CMD_CONTROL, MIDI_CMD_PGM_CHANGE, MIDI_CMD_CHANNEL_PRESSURE,
    MIDI_CMD_BENDER, MIDI_CTL_MSB_DATA_ENTRY, MIDI_CTL_LSB_DATA_ENTRY,
    MIDI_CTL_NONREG_PARM_NUM_LSB, MIDI_CTL_NONREG_PARM_NUM_MSB,
    MIDI_CTL_REGIST_PARM_NUM_LSB, MIDI_CTL_REGIST_PARM_NUM_MSB in *;
  autorewrite with track;
  rewrite ?to_uchar_land by lia;
  rewrite ?(to_uchar_small 0x62), ?(to_uchar_small 0x63), ?(to_uchar_small 0x64),
    ?(to_uchar_small 0x65), ?(to_uchar_small 0x06), ?(to_uchar_small 0x26) by lia;
  rewrite ?Z.max_id;
  autorewrite with track;
  rewrite ?app_nil_l, <- ?app_assoc;
  rewrite <- ?app_comm_cons, ?app_nil_l.

Lemma record_event_message queue ev g st :
  accepted queue ev -> track_wf (track g) -> message_status ev = Some st ->
  appends (track g) (track (record_event queue ev g))
    (var_value_bytes (event_delta g ev) ++
     (if st =? last_command (track g) then [] else [st]) ++ message_data ev) /\
  last_command (track (record_event queue ev g)) = st /\
  last_tick (track (record_event queue ev g)) = event_tick (origin g ev) ev.
Proof.
  intros (Hq & Htick & Hport) Hwf Hst.
  pose proof (message_status_range _ _ Hst) as Hrange.
  pose proof (message_status_uchar _ _ Hst) as Huchar.
  unfold record_event. rewrite Hq, Z.eqb_refl, Htick, Hport. cbn [negb orb Z.eqb].
  set (g1 := if t_start g =? 0 then set_t_start g (time_tick ev) else g).
  assert (track g1 = track g) as Htr by (subst g1; destruct (t_start g =? 0); reflexivity).
  assert (t_start g1 = origin g ev) as Hor
    by (subst g1; unfold origin; destruct (t_start g =? 0); reflexivity).
  cbv zeta. rewrite Htr, Hor. unfold event_delta.
  unfold message_status in Hst. unfold message_data.
  assert ((st <? 240) = true) as Hlt by (apply Z.ltb_lt; lia).
  destruct (type ev) eqn:Hty; inversion Hst; subst st; clear Hst;
    rewrite !track_set_track;
    try destruct (Z.land (control_param ev) 127 <? 32);
    (split; [eapply appends_eq; [| appends_chain; exact Hwf] | ]);
    bytes_eq; rewrite ?Huchar, ?Hlt; auto.
Qed.

Lemma record_event_origin queue ev g :
  ev_queue ev = queue -> snd_seq_ev_is_tick ev = true ->
  t_start (record_event queue ev g) = origin g ev.
Proof.
  intros Hq Htick. unfold record_event, origin.
  rewrite Hq, Z.eqb_refl, Htick. cbn [negb orb].
  destruct (t_start g =? 0) eqn:H0, (dest_port ev =? 0); cbn [negb];
    try reflexivity;
    destruct (type ev); try reflexivity; destruct (ext ev); reflexivity.
Qed.

Lemma record_event_file queue ev g :
  file (record_event queue ev g) = file g /\
  size_offset (record_event queue ev g) = size_offset g.
Proof.
  unfold record_event.
  destruct (negb (ev_queue ev =? queue) || negb (snd_seq_ev_is_tick ev));
    [split; reflexivity |].
  destruct (t_start g =? 0), (negb (dest_port ev =? 0));
    try (split; reflexivity);
    destruct (type ev); try (split; reflexivity);
    destruct (ext ev); split; reflexivity.
Qed.

Lemma record_event_other_port queue ev g :
  dest_port ev <> 0 -> track (record_event queue ev g) = track g.
Proof.
  intros Hport. unfold record_event.
  destruct (negb (ev_queue ev =? queue) || negb (snd_seq_ev_is_tick ev));
    [reflexivity |].
  destruct (Z.eqb_spec (dest_port ev) 0) as [? | _]; [contradiction |].
  cbn [negb]. destruct (t_start g =? 0); reflexivity.
Qed.

Lemma record_event_ignored queue ev g :
  (exists code, type ev = SND_SEQ_EVENT_other code) \/
  (type ev = SND_SEQ_EVENT_SYSEX /\ ext ev = []) ->
  track (record_event queue ev g) = track g.
Proof.
  intros H. unfold record_event.
  destruct (negb (ev_queue ev =? queue) || negb (snd_seq_ev_is_tick ev));
    [reflexivity |].
  destruct (negb (dest_port ev =? 0)); [destruct (t_start g =? 0); reflexivity |].
  destruct H as [[code ->] | [-> ->]]; destruct (t_start g =? 0); reflexivity.
Qed.

(** A SysEx event with a payload: delta time, the status byte [0xf0] or
    [0xf7], the length of the payload and the payload; running status is
    cancelled. *)
Lemma record_event_sysex queue ev g first rest :
  accepted queue ev -> track_wf (track g) ->
  type ev = SND_SEQ_EVENT_SYSEX -> ext ev = first :: rest ->
  let st := if to_uchar first =? 0xf0 then 0xf0 else 0xf7 in
  appends (track g) (track (record_event queue ev g))
    (var_value_bytes (event_delta g ev) ++
     (if st =? last_command (track g) then [] else [st]) ++
     var_value_bytes (to_int (Z.of_nat (length (ext ev)))) ++
     map to_uchar (ext ev)) /\
  last_command (track (record_event queue ev g)) = 0 /\
  last_tick (track (record_event queue ev g)) = event_tick (origin g ev) ev.
Proof.
  intros (Hq & Htick & Hport) Hwf Hty Hext.
  unfold record_event. rewrite Hq, Z.eqb_refl, Htick, Hport. cbn [negb orb Z.eqb].
  set (g1 := if t_start g =? 0 then set_t_start g (time_tick ev) else g).
  assert (track g1 = track g) as Htr by (subst g1; destruct (t_start g =? 0); reflexivity).
  assert (t_start g1 = origin g ev) as Hor
    by (subst g1; unfold origin; destruct (t_start g =? 0); reflexivity).
  cbv zeta. rewrite Htr, Hor, Hty. unfold event_delta.
  rewrite Hext. rewrite <- Hext.
  destruct (to_uchar first =? 0xf0); rewrite !track_set_track;
    (split; [eapply appends_eq; [| appends_chain; exact Hwf] | ]);
    bytes_eq; auto.
Qed.

(** Every event leaves the track well formed. *)
Lemma record_event_wf queue ev g :
  track_wf (track g) -> track_wf (track (record_event queue ev g)).
Proof.
  intros Hwf.
  destruct (Z.eq_dec (ev_queue ev) queue) as [Hq | Hq];
    [| rewrite record_event_filtered by (left; exact Hq); exact Hwf].
  destruct (snd_seq_ev_is_tick ev) eqn:Htick;
    [| rewrite record_event_filtered by (right; exact Htick); exact Hwf].
  destruct (Z.eq_dec (dest_port ev) 0) as [Hport | Hport];
    [| rewrite record_event_other_port by exact Hport; exact Hwf].
  assert (accepted queue ev) as Hacc by (repeat split; assumption).
  destruct (message_status ev) as [st |] eqn:Hst.
  - eapply appends_wf. apply (record_event_message queue ev g st Hacc Hwf Hst).
  - unfold message_status in Hst.
    destruct (type ev) eqn:Hty; try discriminate.
    + destruct (ext ev) as [| first rest] eqn:Hext.
      * rewrite record_event_ignored by (right; split; assumption). exact Hwf.
      * eapply appends_wf.
        apply (record_event_sysex queue ev g first rest Hacc Hwf Hty Hext).
    + rewrite record_event_ignored by (left; eexists; exact Hty). exact Hwf.
Qed.

Lemma record_events_wf o events : forall g,
  track_wf (track g) -> track_wf (track (record_events o events g)).
Proof.
  unfold record_events.
  induction events as [| ev events IH]; intros g Hwf; simpl; [exact Hwf |].
  apply IH, record_event_wf, Hwf.
Qed.

Lemma record_events_file o events : forall g,
  file (record_events o events g) = file g /\
  size_offset (record_events o events g) = size_offset g.
Proof.
  unfold record_events.
  induction events as [| ev events IH]; intros g; simpl; [split; reflexivity |].
  destruct (IH (record_event (queue o) ev g)) as [-> ->].
  apply record_event_file.
Qed.

(** * The claims *)

(** ** Variable-length quantities *)

(** C2: for each of 0, 127, 128, 16383, 16384, 2097151, 2097152 and
    268435455, [var_value] appends exactly the variable-length quantity of
    the MIDI file format, of 1, 1, 2, 2, 3, 3, 4 and 4 bytes; the bytes are
    those of the ladder (a byte [0x80 | ((v >> 21) & 0x7f)] when [v >= 2^21],
    [0x80 | ((v >> 14) & 0x7f)] when [v >= 2^14], [0x80 | ((v >> 7) & 0x7f)]
    when [v >= 2^7], and always a last byte [v & 0x7f] whose bit 7 is clear),
    and they read back as the value. *)
Theorem var_value_boundaries :
  Forall (fun vb : Z * list Z =>
            var_value_bytes vb.1 = vb.2 /\
            vlq_canonical vb.1 = vb.2 /\
            vlq_ladder4 vb.1 = vb.2 /\
            vlq_decode vb.2 = vb.1 /\
            exists b, last vb.2 = Some b /\ b = Z.land vb.1 0x7f /\ Z.testbit b 7 = false)
         vlq_boundaries /\
  map fst vlq_boundaries =
    [0; 127; 128; 16383; 16384; 2097151; 2097152; 268435455] /\
  map (fun vb : Z * list Z => length vb.2) vlq_boundaries =
    [1; 1; 2; 2; 3; 3; 4; 4]%nat.
Proof.
  split; [| split; reflexivity].
  unfold vlq_boundaries.
  repeat (apply Forall_cons; split;
          [ cbn [fst snd]; rewrite var_value_bytes_ladder;
            repeat split; try (vm_compute; reflexivity);
            eexists; repeat split; vm_compute; reflexivity | ]).
  apply Forall_nil. exact I.
Qed.

(** C6, as the code has it: for every non-negative [v] the encoder emits
    between 1 and 5 bytes, and at most 4 exactly when [v < 2^28]; from
    [2^28] on the first step of the ladder adds a fifth byte. *)
Theorem var_value_length v :
  0 <= v ->
  (1 <= length (var_value_bytes v) <= 5)%nat /\
  ((length (var_value_bytes v) <= 4)%nat <-> v < 2 ^ 28).
Proof.
  intros _. rewrite var_value_bytes_ladder, vlq_ladder_length.
  change (1 ≪ 28) with (2 ^ 28).
  destruct (Z.leb_spec (2 ^ 28) v) as [Hge | Hlt].
  - split; [lia |]. split; intros; lia.
  - split; [| split; intros; [exact Hlt |]];
      destruct (1 ≪ 21 <=? v), (1 ≪ 14 <=? v), (1 ≪ 7 <=? v); lia.
Qed.

Lemma var_value_length_witness :
  0 <= 300 /\
  (1 <= length (var_value_bytes 300) <= 5)%nat /\
  ((length (var_value_bytes 300) <= 4)%nat <-> 300 < 2 ^ 28).
Proof. split; [lia | apply (var_value_length 300); lia]. Defined.

(** C6 as stated fails: [2^28] is encoded in five bytes. *)
Lemma var_value_five_bytes :
  0 <= 2 ^ 28 /\
  var_value_bytes (2 ^ 28) = [0x81; 0x80; 0x80; 0x80; 0x00] /\
  ~ (1 <= length (var_value_bytes (2 ^ 28)) <= 4)%nat.
Proof.
  split; [lia |]. split; [vm_compute; reflexivity |].
  intros [_ H]. vm_compute in H. lia.
Qed.

(** ** The byte buffer of the track *)

Lemma track_reachable_wf t : track_reachable t -> track_wf t.
Proof.
  induction 1 as [| t byte _ IH | t tick _ IH | t cmd _ IH].
  - exact init_tracks_wf.
  - apply add_byte_wf, IH.
  - eapply appends_wf, set_last_tick_appends, IH.
  - eapply appends_wf, set_last_command_appends, IH.
Qed.

Lemma track_reachable_size t :
  track_reachable t -> size t = Z.of_nat (length (track_data t)).
Proof.
  induction 1 as [| t byte Hr IH | t tick _ IH | t cmd _ IH].
  - reflexivity.
  - rewrite add_byte_size, add_byte_data by (apply track_reachable_wf, Hr).
    rewrite length_app, IH. simpl. lia.
  - exact IH.
  - exact IH.
Qed.

Lemma chunk_lengths t i c :
  track_wf t -> chunks t !! i = Some c ->
  Z.of_nat (length c) = if Nat.eqb i (cur_buf t) then cur_buf_size t else BUFFER_SIZE.
Proof.
  intros Hwf Hi.
  destruct (track_wf_split t Hwf) as (fulls & cur & Hbufs & Hlen & Hall & Hcurlen).
  destruct Hwf as [_ _ Hsz _].
  rewrite (chunks_split t fulls cur Hbufs Hlen Hall) in Hi.
  destruct (Nat.eqb_spec i (cur_buf t)) as [-> | Hne].
  - rewrite <- Hlen, list_lookup_middle in Hi by reflexivity.
    inversion Hi. rewrite length_take. lia.
  - apply lookup_app_Some in Hi. destruct Hi as [Hi | [Hge Hi]].
    + rewrite (Forall_lookup_1 _ _ _ _ Hall Hi). unfold BUFFER_SIZE. lia.
    + destruct (i - length fulls)%nat as [| k] eqn:Hk; [lia |]. discriminate.
Qed.

(** C8: on every track that recording reaches, [size] is the number of
    bytes present in the chunks of the body: every chunk before the current
    one holds [BUFFER_SIZE] bytes, the current one, which is the last, the
    [cur_buf_size] bytes in use; and [add_byte] adds exactly its byte to the
    chunks and one to [size]. *)
Theorem size_counts_chunks t :
  track_reachable t ->
  size t = Z.of_nat (list_sum (map (@length Z) (chunks t))) /\
  length (chunks t) = S (cur_buf t) /\
  (forall i c, chunks t !! i = Some c ->
     Z.of_nat (length c) =
     if Nat.eqb i (cur_buf t) then cur_buf_size t else BUFFER_SIZE) /\
  forall byte,
    size (add_byte t byte) = size t + 1 /\
    concat (chunks (add_byte t byte)) = concat (chunks t) ++ [to_uchar byte] /\
    list_sum (map (@length Z) (chunks (add_byte t byte))) =
      S (list_sum (map (@length Z) (chunks t))).
Proof.
  intros Hr. pose proof (track_reachable_wf t Hr) as Hwf.
  split; [| split; [| split]].
  - rewrite <- length_concat. apply track_reachable_size, Hr.
  - unfold chunks. rewrite length_imap. symmetry. apply Hwf.
  - intros i c. apply chunk_lengths, Hwf.
  - intros byte. split; [apply add_byte_size |].
    pose proof (add_byte_data t byte Hwf) as Hd. unfold track_data in Hd.
    split; [exact Hd |].
    rewrite <- !length_concat, Hd, length_app. simpl. lia.
Qed.

(** One byte more than a buffer holds: the first buffer is full and the
    second, linked behind it, holds the last byte. *)
Example second_buffer :
  let t := fold_left add_byte (replicate (Z.to_nat BUFFER_SIZE + 1) 0x55) init_tracks in
  cur_buf t = 1%nat /\ cur_buf_size t = 1 /\ size t = BUFFER_SIZE + 1 /\
  map (@length Z) (chunks t) = [Z.to_nat BUFFER_SIZE; 1%nat] /\
  track_data t = replicate (Z.to_nat BUFFER_SIZE + 1) 0x55.
Proof. vm_compute. repeat split; reflexivity. Qed.

Lemma size_counts_chunks_witness :
  track_reachable (add_byte init_tracks 0x90) /\
  size (add_byte init_tracks 0x90) =
    Z.of_nat (list_sum (map (@length Z) (chunks (add_byte init_tracks 0x90)))).
Proof.
  assert (track_reachable (add_byte init_tracks 0x90)) as Hr
    by (apply reachable_add_byte, reachable_init).
  split; [exact Hr | apply (size_counts_chunks _ Hr)].
Defined.

(** ** Delta times *)

(** C4, as the code has it: [delta_time] records [max(0, d)], where [d] is
    the difference [tick - last_tick] of the two unsigned 32-bit ticks read as
    an [int]; so the recorded delta is never negative, it is
    [max(0, tick - last_tick)] whenever that difference fits an [int], also for
    a tick lower than the last one, and [last_tick] becomes the new tick in
    every case. *)
Theorem delta_time_records t_start t ev :
  track_wf t ->
  let tick := event_tick t_start ev in
  let d := tick_diff t tick in
  delta_time t_start t ev = set_last_tick (var_value t (Z.max 0 d)) tick /\
  track_data (delta_time t_start t ev) =
    track_data t ++ var_value_bytes (Z.max 0 d) /\
  0 <= Z.max 0 d /\
  (- 2 ^ 31 <= tick - last_tick t < 2 ^ 31 -> d = tick - last_tick t) /\
  last_tick (delta_time t_start t ev) = tick.
Proof.
  intros Hwf tick d. split; [apply delta_time_clamp |].
  split.
  - pose proof (appends_delta_time t_start t t ev [] (appends_refl t Hwf)) as (_ & Hd & _).
    rewrite Hd, app_nil_l. reflexivity.
  - split; [lia |]. split; [| reflexivity].
    intros Hrange. subst d. unfold tick_diff.
    rewrite to_int_to_uint. apply to_int_small. exact Hrange.
Qed.

Lemma delta_time_records_witness :
  track_wf init_tracks /\
  last_tick (delta_time 0 init_tracks tick_one_event) = 1.
Proof.
  split; [exact init_tracks_wf |].
  apply (delta_time_records 0 init_tracks tick_one_event init_tracks_wf).
Defined.

(** C4 as stated fails when the ticks are [2^31] apart: after a first event
    at tick 1 ([t_start = 1], [last_tick = 0]) an event at tick [2^31 + 1]
    has the tick [2^31]; the difference, read as an [int], is negative, and
    the delta recorded is 0, not [2^31]. *)
Lemma delta_time_wraps :
  let g := record_event 0 tick_one_event empty_globals in
  t_start g = 1 /\ last_tick (track g) = 0 /\
  event_tick (t_start g) far_event = 2 ^ 31 /\
  track_data (delta_time (t_start g) (track g) far_event) =
    track_data (track g) ++ [0] /\
  var_value_bytes (Z.max 0 (event_tick (t_start g) far_event - last_tick (track g))) =
    [0x80; 0x80; 0x80; 0x80; 0x00].
Proof. vm_compute. repeat split; reflexivity. Qed.

(** ** Events *)

(** C9: an event of a kind that [record_event] does not know, and a SysEx
    event without payload, leave the track as it is, so no byte is added and
    [last_tick] and [last_command] keep their values; nothing is written to
    the file either.  [record_event] has no failing path for them. *)
Theorem ignored_event_leaves_track queue ev g :
  (exists code, type ev = SND_SEQ_EVENT_other code) \/
  (type ev = SND_SEQ_EVENT_SYSEX /\ ext ev = []) ->
  track (record_event queue ev g) = track g /\
  track_data (track (record_event queue ev g)) = track_data (track g) ++ [] /\
  size (track (record_event queue ev g)) = size (track g) /\
  last_tick (track (record_event queue ev g)) = last_tick (track g) /\
  last_command (track (record_event queue ev g)) = last_command (track g) /\
  file (record_event queue ev g) = file g.
Proof.
  intros H. rewrite (record_event_ignored queue ev g H), app_nil_r.
  repeat split. apply record_event_file.
Qed.

Lemma ignored_event_leaves_track_witness :
  (type (sysex_event 0 5 []) = SND_SEQ_EVENT_SYSEX /\ ext (sysex_event 0 5 []) = []) /\
  track (record_event 0 (sysex_event 0 5 []) empty_globals) = track empty_globals.
Proof.
  split; [split; reflexivity |].
  apply (ignored_event_leaves_track 0 (sysex_event 0 5 []) empty_globals).
  right. split; reflexivity.
Defined.

Lemma land_7f_small z : 0 <= z < 128 -> Z.land z 0x7f = z.
Proof.
  intros H. change 0x7f with (Z.ones 7). rewrite Z.land_ones by lia.
  apply Z.mod_small. exact H.
Qed.

(** C7: a Controller14 event with [param < 0x20] makes two controller
    messages at the same tick: delta time, status byte [0xb0 | channel] unless
    it is the running status, [param] and [(value >> 7) & 0x7f]; then a delta
    time of its own, which is 0, and [param + 0x20] and [value & 0x7f]. *)
Theorem control14_two_messages queue ev g :
  accepted queue ev -> track_wf (track g) ->
  type ev = SND_SEQ_EVENT_CONTROL14 ->
  0 <= control_param ev < 0x20 ->
  let st := Z.lor 0xb0 (Z.land (control_channel ev) 0xf) in
  let g' := record_event queue ev g in
  track_data (track g') =
    track_data (track g) ++
    (var_value_bytes (event_delta g ev) ++
     (if st =? last_command (track g) then [] else [st]) ++
     [control_param ev; Z.land (control_value ev ≫ 7) 0x7f]) ++
    (var_value_bytes 0 ++
     [control_param ev + 0x20; Z.land (control_value ev) 0x7f]) /\
  var_value_bytes 0 = [0] /\
  last_tick (track g') = event_tick (origin g ev) ev.
Proof.
  intros Hacc Hwf Hty Hparam st g'.
  assert (message_status ev = Some st) as Hst
    by (unfold message_status; rewrite Hty; reflexivity).
  destruct (record_event_message queue ev g st Hacc Hwf Hst) as ((_ & Hd & _) & _ & Htick).
  split; [| split; [exact var_value_bytes_0 | exact Htick]].
  subst g'. rewrite Hd. unfold message_data. rewrite Hty.
  rewrite (land_7f_small (control_param ev)) by lia.
  destruct (Z.ltb_spec (control_param ev) 0x20) as [_ | ?]; [| lia].
  rewrite var_value_bytes_0, <- !app_assoc. reflexivity.
Qed.

Lemma control14_two_messages_witness :
  let ev := control_event SND_SEQ_EVENT_CONTROL14 0 10 2 7 0x1234 in
  (accepted 0 ev /\ track_wf (track empty_globals) /\
   type ev = SND_SEQ_EVENT_CONTROL14 /\ 0 <= control_param ev < 0x20) /\
  last_tick (track (record_event 0 ev empty_globals)) =
    event_tick (origin empty_globals ev) ev.
Proof.
  intros ev.
  assert (accepted 0 ev) as Hacc by (repeat split).
  assert (0 <= control_param ev < 0x20) as Hp by (subst ev; simpl; lia).
  split; [split; [exact Hacc | split; [exact init_tracks_wf | split; [reflexivity | exact Hp]]] |].
  apply (control14_two_messages 0 ev empty_globals Hacc init_tracks_wf eq_refl Hp).
Defined.

Lemma record_event_control14 queue ev g :
  accepted queue ev -> type ev = SND_SEQ_EVENT_CONTROL14 ->
  record_event queue ev g =
  let g := if t_start g =? 0 then set_t_start g (time_tick ev) else g in
  let msb :=
    add_byte
      (add_byte
         (command (delta_time (t_start g) (track g) ev)
            (Z.lor MIDI_CMD_CONTROL (Z.land (control_channel ev) 0xf)))
         (Z.land (control_param ev) 0x7f))
      (Z.land (control_value ev ≫ 7) 0x7f) in
  set_track g
    (if Z.land (control_param ev) 0x7f <? 0x20 then
       add_byte
         (add_byte (delta_time (t_start g) msb ev) (Z.land (control_param ev) 0x7f + 0x20))
         (Z.land (control_value ev) 0x7f)
     else msb).
Proof.
  intros (Hq & Htick & Hport) Hty. unfold record_event.
  rewrite Hq, Z.eqb_refl, Htick, Hport, Hty. reflexivity.
Qed.

Lemma delta_time_same_tick t_start t ev ev' :
  time_tick ev' = time_tick ev -> delta_time t_start t ev' = delta_time t_start t ev.
Proof. intros H. unfold delta_time, event_tick. rewrite H. reflexivity. Qed.

(** C10: a Controller14 event whose [param & 0x7f] is [0x20] or more makes
    one controller message: delta time, status byte [0xb0 | channel] unless it
    is the running status, [param & 0x7f] and [(value >> 7) & 0x7f].  The low
    seven bits of the value are not recorded: two values that agree from bit
    7 up give the same track. *)
Theorem control14_high_param_one_message queue ev g :
  accepted queue ev -> track_wf (track g) ->
  type ev = SND_SEQ_EVENT_CONTROL14 ->
  0x20 <= Z.land (control_param ev) 0x7f ->
  let st := Z.lor 0xb0 (Z.land (control_channel ev) 0xf) in
  track_data (track (record_event queue ev g)) =
    track_data (track g) ++
    var_value_bytes (event_delta g ev) ++
    (if st =? last_command (track g) then [] else [st]) ++
    [Z.land (control_param ev) 0x7f; Z.land (control_value ev ≫ 7) 0x7f] /\
  forall value,
    value ≫ 7 = control_value ev ≫ 7 ->
    track (record_event queue (set_control_value ev value) g) =
    track (record_event queue ev g).
Proof.
  intros Hacc Hwf Hty Hparam st.
  assert (message_status ev = Some st) as Hst
    by (unfold message_status; rewrite Hty; reflexivity).
  destruct (record_event_message queue ev g st Hacc Hwf Hst) as ((_ & Hd & _) & _ & _).
  assert ((Z.land (control_param ev) 0x7f <? 0x20) = false) as Hge
    by (apply Z.ltb_ge; exact Hparam).
  split.
  - rewrite Hd. unfold message_data. rewrite Hty, Hge, app_nil_r. reflexivity.
  - intros value Hvalue.
    rewrite (record_event_control14 queue ev g Hacc Hty).
    rewrite (record_event_control14 queue (set_control_value ev value) g)
      by (try exact Hacc; exact Hty).
    cbv zeta. cbn [set_control_value control_param control_value control_channel time_tick].
    rewrite Hge, Hvalue.
    rewrite (delta_time_same_tick _ _ ev (set_control_value ev value)) by reflexivity.
    reflexivity.
Qed.

Lemma control14_high_param_one_message_witness :
  let ev := control_event SND_SEQ_EVENT_CONTROL14 0 10 2 0x21 0x1234 in
  (accepted 0 ev /\ track_wf (track empty_globals) /\
   type ev = SND_SEQ_EVENT_CONTROL14 /\ 0x20 <= Z.land (control_param ev) 0x7f) /\
  track (record_event 0 (set_control_value ev 0x1255) empty_globals) =
  track (record_event 0 ev empty_globals).
Proof.
  intros ev.
  assert (accepted 0 ev) as Hacc by (repeat split).
  assert (0x20 <= Z.land (control_param ev) 0x7f) as Hp
    by (subst ev; vm_compute; discriminate).
  split; [split; [exact Hacc | split; [exact init_tracks_wf | split; [reflexivity | exact Hp]]] |].
  apply (control14_high_param_one_message 0 ev empty_globals Hacc init_tracks_wf eq_refl Hp).
  reflexivity.
Defined.

(** ** Running status *)

Lemma command_resets t cmd :
  0xf0 <= cmd < 0x100 -> last_command (command t cmd) = 0.
Proof.
  intros H. rewrite command_last_command, to_uchar_small by lia.
  destruct (Z.ltb_spec cmd 0xf0); [lia | reflexivity].
Qed.

(** C3: of two channel events in a row with the same status byte, the
    second is recorded without it; [e1] itself writes the status byte when it
    is not the running status already.  A status byte of [0xf0] or more puts
    [last_command] back to 0, which no channel status equals; so after a
    SysEx event (whose status byte is always written) the same [e2] is
    recorded with its status byte. *)
Theorem running_status queue g e1 sx e2 st :
  track_wf (track g) ->
  accepted queue e1 -> accepted queue sx -> accepted queue e2 ->
  message_status e1 = Some st -> message_status e2 = Some st ->
  type sx = SND_SEQ_EVENT_SYSEX -> ext sx <> [] ->
  let g1 := record_event queue e1 g in
  let g2 := record_event queue e2 g1 in
  let gx := record_event queue sx g1 in
  let g3 := record_event queue e2 gx in
  last_command (track g1) = st /\
  (last_command (track g) <> st ->
   track_data (track g1) =
     track_data (track g) ++
     var_value_bytes (event_delta g e1) ++ [st] ++ message_data e1) /\
  track_data (track g2) =
    track_data (track g1) ++
    var_value_bytes (event_delta g1 e2) ++ message_data e2 /\
  (forall t cmd, 0xf0 <= cmd < 0x100 -> last_command (command t cmd) = 0) /\
  (exists sx_status,
     0xf0 <= sx_status /\
     track_data (track gx) =
       track_data (track g1) ++
       var_value_bytes (event_delta g1 sx) ++ [sx_status] ++
       var_value_bytes (to_int (Z.of_nat (length (ext sx)))) ++
       map to_uchar (ext sx)) /\
  last_command (track gx) = 0 /\
  track_data (track g3) =
    track_data (track gx) ++
    var_value_bytes (event_delta gx e2) ++ [st] ++ message_data e2.
Proof.
  intros Hwf Hacc1 Haccx Hacc2 Hst1 Hst2 Htyx Hext g1 g2 gx g3.
  pose proof (message_status_range _ _ Hst1) as Hrange.
  destruct (record_event_message queue e1 g st Hacc1 Hwf Hst1)
    as ((Hwf1 & Hd1 & _) & Hcmd1 & _).
  fold g1 in Hwf1, Hd1, Hcmd1.
  destruct (record_event_message queue e2 g1 st Hacc2 Hwf1 Hst2)
    as ((_ & Hd2 & _) & _ & _).
  fold g2 in Hd2.
  destruct (ext sx) as [| first rest] eqn:Hpayload; [contradiction |].
  destruct (record_event_sysex queue sx g1 first rest Haccx Hwf1 Htyx Hpayload)
    as ((Hwfx & Hdx & _) & Hcmdx & _).
  fold gx in Hwfx, Hdx, Hcmdx.
  destruct (record_event_message queue e2 gx st Hacc2 Hwfx Hst2)
    as ((_ & Hd3 & _) & _ & _).
  fold g3 in Hd3.
  split; [exact Hcmd1 |]. split.
  { intros Hne. rewrite Hd1.
    destruct (Z.eqb_spec st (last_command (track g))) as [Heq | _]; [congruence |].
    reflexivity. }
  split.
  { rewrite Hd2, Hcmd1, Z.eqb_refl. reflexivity. }
  split; [apply command_resets |]. split.
  { exists (if to_uchar first =? 0xf0 then 0xf0 else 0xf7).
    split; [destruct (to_uchar first =? 0xf0); lia |].
    rewrite Hdx, Hcmd1, Hpayload.
    destruct (Z.eqb_spec (if to_uchar first =? 0xf0 then 0xf0 else 0xf7) st) as [Heq | _];
      [destruct (to_uchar first =? 0xf0); lia | reflexivity]. }
  split; [exact Hcmdx |].
  rewrite Hd3, Hcmdx.
  destruct (Z.eqb_spec st 0) as [Heq | _]; [lia | reflexivity].
Qed.

Lemma running_status_witness :
  let e := note_event SND_SEQ_EVENT_NOTEON 0 10 0 60 100 in
  let sx := sysex_event 0 20 [0xf0; 0x7e; 0xf7] in
  (track_wf (track empty_globals) /\ accepted 0 e /\ accepted 0 sx /\
   message_status e = Some 0x90 /\ type sx = SND_SEQ_EVENT_SYSEX /\ ext sx <> []) /\
  last_command (track (record_event 0 e empty_globals)) = 0x90.
Proof.
  intros e sx.
  assert (accepted 0 e) as He by (repeat split).
  assert (accepted 0 sx) as Hsx by (repeat split).
  assert (ext sx <> []) as Hext by discriminate.
  split.
  - split; [exact init_tracks_wf |]. repeat split; try reflexivity. exact Hext.
  - apply (running_status 0 empty_globals e sx e 0x90
             init_tracks_wf He Hsx He eq_refl eq_refl eq_refl Hext).
Defined.

(** ** The time origin *)

Lemma record_event_origin_kept queue ev g :
  t_start g <> 0 -> t_start (record_event queue ev g) = t_start g.
Proof.
  intros Hne. unfold record_event.
  destruct (negb (ev_queue ev =? queue) || negb (snd_seq_ev_is_tick ev));
    [reflexivity |].
  destruct (Z.eqb_spec (t_start g) 0) as [? | _]; [contradiction |].
  destruct (negb (dest_port ev =? 0)); [reflexivity |].
  destruct (type ev); try reflexivity. destruct (ext ev); reflexivity.
Qed.

(** The tick of a first event is taken as the origin whatever port the event
    is for, and kept from then on, provided it is not 0. *)
Lemma first_tick_is_origin o first events :
  ev_queue first = queue o -> snd_seq_ev_is_tick first = true ->
  time_tick first <> 0 ->
  t_start (record_events o (first :: events) (recording_start o)) = time_tick first.
Proof.
  intros Hq Htick Hne. unfold record_events. simpl fold_left.
  set (g1 := record_event (queue o) first (recording_start o)).
  assert (t_start g1 = time_tick first) as H1.
  { subst g1. rewrite record_event_origin by assumption.
    unfold origin. reflexivity. }
  clearbody g1. revert g1 H1.
  induction events as [| ev events IH]; intros g1 H1; simpl; [exact H1 |].
  apply IH. rewrite record_event_origin_kept; [exact H1 | congruence].
Qed.

(** C5 fails on the code when the first event has tick 0: [t_start == 0]
    also stands for "no event yet", so the origin is taken again from the
    next event.  A note from tick 0 to tick 384: the NoteOff is recorded with
    delta time 0 ([00 80 3c 00]), while its tick relative to the first
    event's is 384, whose delta time is [83 00]. *)
Theorem origin_taken_again_after_tick_0 :
  let o := default_options 0 in
  let g1 := record_events o [note_on_at_0] (recording_start o) in
  let g2 := record_events o [note_on_at_0; note_off_at_384] (recording_start o) in
  t_start g1 = 0 /\ last_tick (track g1) = 0 /\
  t_start g2 = 384 /\ last_tick (track g2) = 0 /\
  track_data (track g2) = track_data (track g1) ++ [0x00; 0x80; 0x3c; 0x00] /\
  var_value_bytes (time_tick note_off_at_384 - time_tick note_on_at_0) = [0x83; 0x00].
Proof. vm_compute. repeat split; reflexivity. Qed.

(** ** Writing the file *)

(** The steps that append to the file, in the form in which they chain. *)

Lemma writes_refl f : at_end f -> writes f f [].
Proof. intros H. split; [exact H | rewrite app_nil_r; reflexivity]. Qed.

Lemma writes_eq f f' b1 b2 : b1 = b2 -> writes f f' b1 -> writes f f' b2.
Proof. intros ->. trivial. Qed.

Lemma put_byte_at_end f b :
  at_end f -> writes f (put_byte b f) [b].
Proof.
  unfold at_end, writes, put_byte. intros H. cbn [contents pos].
  rewrite H, Nat2Z.id.
  destruct (Nat.ltb_spec (length (contents f)) (length (contents f))) as [? | _]; [lia |].
  rewrite Nat.sub_diag. cbn [replicate app].
  split; [| reflexivity].
  unfold at_end. cbn [contents pos]. rewrite length_app. simpl. lia.
Qed.

Lemma writes_put_byte f x b bytes :
  writes f x bytes -> writes f (put_byte b x) (bytes ++ [b]).
Proof.
  intros [Hend Hc]. destruct (put_byte_at_end x b Hend) as [Hend' Hc'].
  split; [exact Hend' |]. rewrite Hc', Hc, app_assoc. reflexivity.
Qed.

Lemma writes_fputc f x c bytes :
  writes f x bytes -> writes f (fputc c x) (bytes ++ [to_uchar c]).
Proof. apply writes_put_byte. Qed.

Lemma writes_fwrite f x ptr n bytes :
  writes f x bytes -> writes f (fwrite ptr n x) (bytes ++ take (Z.to_nat n) ptr).
Proof.
  unfold fwrite. generalize (take (Z.to_nat n) ptr). intros l.
  revert x bytes. induction l as [| b l IH]; intros x bytes H; simpl.
  - rewrite app_nil_r. exact H.
  - replace (bytes ++ b :: l) with ((bytes ++ [b]) ++ l)
      by (rewrite <- app_assoc; reflexivity).
    apply IH, writes_put_byte, H.
Qed.

Lemma writes_var_value_direct f x v bytes :
  writes f x bytes ->
  writes f (var_value_direct v x).2 (bytes ++ var_value_bytes v) /\
  (var_value_direct v x).1 = Z.of_nat (length (var_value_bytes v)).
Proof.
  intros H. rewrite var_value_bytes_ladder. unfold var_value_direct, vlq_ladder.
  destruct (1 ≪ 28 <=? v), (1 ≪ 21 <=? v), (1 ≪ 14 <=? v), (1 ≪ 7 <=? v);
    cbn [fst snd]; (split; [| reflexivity]);
    (eapply writes_eq; [| repeat simple apply writes_fputc; exact H]);
    rewrite ?to_uchar_vlq_top, ?to_uchar_vlq_high, ?to_uchar_land by lia;
    rewrite ?app_nil_l, <- ?app_assoc; reflexivity.
Qed.

Lemma writes_flush_chain t chain : forall i f x bytes,
  writes f x bytes ->
  writes f (flush_chain t i chain x)
    (bytes ++ concat (imap (fun j b => take (Z.to_nat (chunk_size t (i + j))) b) chain)).
Proof.
  induction chain as [| buf next IH]; intros i f x bytes H.
  - simpl. rewrite app_nil_r. exact H.
  - cbn [flush_chain]. rewrite imap_cons. cbn [concat]. rewrite app_assoc.
    eapply writes_eq; [| apply (IH (S i)), writes_fwrite, H].
    f_equal.
    + f_equal. unfold chunk_size. rewrite Nat.add_0_r. reflexivity.
    + f_equal. apply imap_ext. intros j b _. cbn. f_equal. f_equal. f_equal. lia.
Qed.

Lemma writes_flush_buffer g :
  at_end (file g) ->
  writes (file g) (file (flush_buffer g)) (track_data (track g)).
Proof.
  intros H. unfold flush_buffer. cbn [file set_file].
  eapply writes_eq; [| apply writes_flush_chain, writes_refl, H].
  rewrite app_nil_l. reflexivity.
Qed.

Lemma writes_pos f f' bytes :
  at_end f -> writes f f' bytes -> pos f' = pos f + Z.of_nat (length bytes).
Proof.
  unfold at_end, writes. intros H [H' Hc]. rewrite H', Hc, H, length_app. lia.
Qed.

(** Follows a nest of writing calls from the outermost one inwards. *)
Ltac writes_chain :=
  lazymatch goal with
  | |- writes _ (fputc _ _) _ => simple eapply writes_fputc; writes_chain
  | |- writes _ (fwrite _ _ _) _ => simple eapply writes_fwrite; writes_chain
  | |- writes ?f ?f _ => simple apply writes_refl
  end.

Lemma write_header_writes o g :
  at_end (file g) ->
  writes (file g) (file (write_header o g))
    (header_chunk o ++ track_tag ++ length_bytes (size (track g))) /\
  size_offset (write_header o g) = pos (file g) + 18 /\
  track (write_header o g) = track g /\
  t_start (write_header o g) = t_start g.
Proof.
  intros Hend. unfold write_header. cbv zeta.
  cbn [track file set_file set_size_offset size_offset t_start ftell].
  fold (time_division o).
  split; [| split; [| split; reflexivity]].
  - eapply writes_eq; [| writes_chain; exact Hend].
    rewrite !to_uchar_land by lia. reflexivity.
  - unfold ftell. match goal with |- pos ?x = _ =>
      assert (writes (file g) x (header_chunk o ++ track_tag)) as Hw end.
    { eapply writes_eq; [| writes_chain; exact Hend].
      rewrite !to_uchar_land by lia. reflexivity. }
    rewrite (writes_pos _ _ _ Hend Hw). reflexivity.
Qed.

Lemma put_byte_over f pre old rest b :
  contents f = pre ++ old :: rest -> pos f = Z.of_nat (length pre) ->
  contents (put_byte b f) = pre ++ b :: rest /\
  pos (put_byte b f) = Z.of_nat (length (pre ++ [b])).
Proof.
  intros Hc Hp. unfold put_byte. cbn [contents pos]. rewrite Hp, Nat2Z.id, Hc.
  destruct (Nat.ltb_spec (length pre) (length (pre ++ old :: rest))) as [_ | Hge].
  - split.
    + replace (length pre) with (length pre + 0)%nat at 1 by lia.
      rewrite insert_app_r. reflexivity.
    + rewrite length_app. simpl. lia.
  - rewrite length_app in Hge. simpl in Hge. lia.
Qed.

Lemma snoc_cons (l1 l2 : list Z) x : l1 ++ x :: l2 = (l1 ++ [x]) ++ l2.
Proof. rewrite <- app_assoc. reflexivity. Qed.

Lemma update_length_patches extra g pre b0 b1 b2 b3 rest :
  contents (file g) = pre ++ [b0; b1; b2; b3] ++ rest ->
  size_offset g = Z.of_nat (length pre) ->
  contents (file (update_length extra g)) =
    pre ++ length_bytes (size (track g) + extra) ++ rest /\
  pos (file (update_length extra g)) = pos (file g) /\
  size_offset (update_length extra g) = size_offset g /\
  size (track (update_length extra g)) = size (track g) + extra.
Proof.
  intros Hc Hoff. unfold update_length. cbv zeta.
  cbn [track file set_file set_track set_size size size_offset ftell].
  split; [| repeat split].
  set (n := size (track g) + extra).
  set (f0 := fseek (file g) (size_offset g)).
  assert (contents f0 = pre ++ b0 :: b1 :: b2 :: b3 :: rest) as H0 by exact Hc.
  assert (pos f0 = Z.of_nat (length pre)) as P0 by exact Hoff.
  unfold fputc. rewrite !to_uchar_land by lia.
  destruct (put_byte_over _ _ _ _ (Z.land (n ≫ 24) 0xff) H0 P0) as [H1 P1].
  rewrite snoc_cons in H1.
  destruct (put_byte_over _ _ _ _ (Z.land (n ≫ 16) 0xff) H1 P1) as [H2 P2].
  rewrite snoc_cons in H2.
  destruct (put_byte_over _ _ _ _ (Z.land (n ≫ 8) 0xff) H2 P2) as [H3 P3].
  rewrite snoc_cons in H3.
  destruct (put_byte_over _ _ _ _ (Z.land n 0xff) H3 P3) as [H4 _].
  cbn [fseek contents]. rewrite H4. rewrite <- !app_assoc. reflexivity.
Qed.

Lemma be_decode_length_bytes n : 0 <= n < 2 ^ 32 -> be_decode (length_bytes n) = n.
Proof.
  intros Hn. unfold be_decode, length_bytes. cbn [fold_left].
  change 0xff with (Z.ones 8). rewrite !Z.land_ones, !Z.shiftr_div_pow2 by lia.
  assert (n / 2 ^ 16 = n / 2 ^ 8 / 2 ^ 8) as -> by (rewrite Z.div_div by lia; reflexivity).
  assert (n / 2 ^ 24 = n / 2 ^ 8 / 2 ^ 8 / 2 ^ 8) as ->
    by (rewrite !Z.div_div by lia; reflexivity).
  change (2 ^ 8) with 256. change (2 ^ 32) with 4294967296 in Hn.
  Z.div_mod_to_equations. lia.
Qed.

Lemma write_track_end_writes queue_tick g f bytes :
  writes f (file g) bytes ->
  writes f (file (write_track_end queue_tick g).2)
    (bytes ++ track_end_bytes queue_tick (track g)) /\
  (write_track_end queue_tick g).1 =
    Z.of_nat (length (track_end_bytes queue_tick (track g))) /\
  track (write_track_end queue_tick g).2 = track g /\
  size_offset (write_track_end queue_tick g).2 = size_offset g.
Proof.
  intros H. unfold write_track_end, track_end_bytes. cbv zeta.
  set (v := to_int (to_uint (to_int queue_tick - last_tick (track g)))).
  destruct (writes_var_value_direct f (file g) v bytes H) as [Hw1 Hn1].
  destruct (var_value_direct v (file g)) as [n1 f1]. cbn [fst snd] in Hw1, Hn1.
  pose proof (writes_fputc _ _ 0x2f _ (writes_fputc _ _ 0xff _ Hw1)) as Hw2.
  destruct (writes_var_value_direct f _ 0 _ Hw2) as [Hw3 Hn3].
  destruct (var_value_direct 0 (fputc 47 (fputc 255 f1))) as [n3 f3].
  cbn [fst snd] in Hw3, Hn3. cbn [fst snd file set_file track size_offset].
  split; [| split; [| split; reflexivity]].
  - eapply writes_eq; [| exact Hw3].
    rewrite var_value_bytes_0, <- !app_assoc. reflexivity.
  - rewrite Hn1, Hn3, var_value_bytes_0, length_app. simpl. lia.
Qed.

Lemma full_buffers_length (fulls : list (list Z)) :
  Forall (fun b : list Z => length b = Z.to_nat BUFFER_SIZE) fulls ->
  Z.of_nat (length (concat fulls)) = Z.of_nat (length fulls) * BUFFER_SIZE.
Proof.
  induction 1 as [| b l Hb _ IH]; [reflexivity |].
  cbn [concat length]. rewrite length_app, Nat2Z.inj_add, IH, Hb.
  unfold BUFFER_SIZE. lia.
Qed.

Lemma track_wf_size t : track_wf t -> size t = Z.of_nat (length (track_data t)).
Proof.
  intros Hwf.
  destruct (track_wf_split t Hwf) as (fulls & cur & Hbufs & Hlen & Hall & Hcurlen).
  destruct Hwf as [_ _ Hsz Hsize].
  unfold track_data. rewrite (chunks_split t fulls cur Hbufs Hlen Hall).
  rewrite concat_snoc, length_app, Nat2Z.inj_add, (full_buffers_length fulls Hall).
  rewrite length_take, Hsize, Hlen. lia.
Qed.

Lemma record_tempo_wf o : track_wf (record_tempo o init_tracks).
Proof.
  unfold record_tempo. cbv zeta.
  eapply (appends_wf init_tracks). appends_chain. exact init_tracks_wf.
Qed.

Lemma recording_start_spec o :
  let g := recording_start o in
  track_wf (track g) /\
  size_offset g = 18 /\
  writes fopen (file g) (header_chunk o ++ track_tag ++ length_bytes (size (track g))).
Proof.
  unfold recording_start. cbv zeta.
  set (g0 := {| t_start := 0; track := _; file := fopen; size_offset := 0 |}).
  assert (at_end (file g0)) as Hend by reflexivity.
  destruct (write_header_writes o g0 Hend) as (Hw & Hoff & Htr & _).
  rewrite Htr. split; [| split; [exact Hoff | exact Hw]].
  subst g0. cbn [track].
  destruct (smpte_timing o); [exact init_tracks_wf | apply record_tempo_wf].
Qed.

(** C1: when the recording stops with the track [track g], the four bytes
    at the offset that [write_header] kept (18) are the big-endian number
    [size + extra_size]: the bytes buffered in the track plus the bytes that
    [write_track_end] wrote, which are the last delta time and the
    end-of-track event [ff 2f 00].  That number is the length of all that
    follows the field in the file; the data ends with [ff 2f 00], and with
    [N] bytes before these three the field holds [N + 3].  (The sum has to
    fit the [int] in which it is computed.) *)
Theorem length_field_counts_track o events queue_tick :
  let g := record_events o events (recording_start o) in
  let g' := main o events queue_tick in
  let epilogue := track_end_bytes queue_tick (track g) in
  size (track g) + Z.of_nat (length epilogue) <= INT_MAX ->
  (write_track_end queue_tick (flush_buffer g)).1 = Z.of_nat (length epilogue) /\
  size_offset g' = 18 /\
  length (length_field g') = 4%nat /\
  be_decode (length_field g') = size (track g) + Z.of_nat (length epilogue) /\
  size (track g) = Z.of_nat (length (track_data (track g))) /\
  track_chunk_data g' = track_data (track g) ++ epilogue /\
  be_decode (length_field g') = Z.of_nat (length (track_chunk_data g')) /\
  (exists content,
     track_chunk_data g' = content ++ [0xff; 0x2f; 0x00] /\
     be_decode (length_field g') = Z.of_nat (length content) + 3) /\
  contents (file g') =
    header_chunk o ++ track_tag ++ length_field g' ++ track_chunk_data g'.
Proof.
  intros g g' epilogue Hmax.
  destruct (recording_start_spec o) as (Hwf0 & Hoff0 & Hw0).
  pose proof (record_events_wf o events _ Hwf0) as Hwf. fold g in Hwf.
  destruct (record_events_file o events (recording_start o)) as [Hfile Hoff].
  fold g in Hfile, Hoff.
  pose proof (track_wf_size _ Hwf) as Hsize.
  assert (at_end (file g)) as Hend by (rewrite Hfile; apply Hw0).
  pose proof (writes_flush_buffer g Hend) as Hwflush.
  destruct (write_track_end_writes queue_tick (flush_buffer g) (file g) _ Hwflush)
    as (Hwend & Hextra & Htrend & Hoffend).
  fold epilogue in Hwend, Hextra.
  change (track (flush_buffer g)) with (track g) in *.
  change (size_offset (flush_buffer g)) with (size_offset g) in Hoffend.
  fold epilogue in Hwend, Hextra.
  subst g'. unfold main. fold g. unfold recording_end. cbv zeta.
  destruct (write_track_end queue_tick (flush_buffer g)) as [extra g3] eqn:Hwte.
  cbn [fst snd] in *. 
  destruct Hwend as [_ Hc3]. destruct Hw0 as [_ Hc0].
  rewrite Hfile, Hc0 in Hc3. cbn [fopen contents] in Hc3.
  rewrite app_nil_l in Hc3.
  set (hdr := header_chunk o ++ track_tag) in *.
  assert (length hdr = 18%nat) as Hhdr by reflexivity.
  assert (contents (file g3) =
          hdr ++ length_bytes (size (track (recording_start o))) ++
          (track_data (track g) ++ epilogue)) as Hc3'.
  { rewrite Hc3. subst hdr. rewrite <- !app_assoc. reflexivity. }
  destruct (update_length_patches extra g3 hdr _ _ _ _ _ Hc3') as (Hc4 & _ & Hoff4 & _).
  { rewrite Hoffend, Hoff, Hoff0, Hhdr. reflexivity. }
  set (g4 := update_length extra g3) in *.
  rewrite Htrend, Hextra in Hc4.
  assert (size_offset g4 = 18) as Hoff18 by (rewrite Hoff4, Hoffend, Hoff, Hoff0; reflexivity).
  assert (length_field g4 = length_bytes (size (track g) + Z.of_nat (length epilogue))) as Hfield.
  { unfold length_field. rewrite Hoff18, Hc4.
    change (Z.to_nat 18) with (length hdr).
    rewrite drop_app_length. reflexivity. }
  assert (track_chunk_data g4 = track_data (track g) ++ epilogue) as Hdata.
  { unfold track_chunk_data. rewrite Hoff18, Hc4, app_assoc.
    apply drop_app_length'. rewrite length_app, Hhdr. reflexivity. }
  assert (be_decode (length_field g4) = size (track g) + Z.of_nat (length epilogue)) as Hdec.
  { rewrite Hfield. apply be_decode_length_bytes. unfold INT_MAX in Hmax. lia. }
  split; [exact Hextra |]. split; [exact Hoff18 |].
  split; [rewrite Hfield; reflexivity |].
  split; [exact Hdec |]. split; [exact Hsize |]. split; [exact Hdata |].
  split; [rewrite Hdec, Hdata, length_app, Hsize; lia |].
  split.
  - exists (track_data (track g) ++
            var_value_bytes (to_int (to_uint (to_int queue_tick - last_tick (track g))))).
    split.
    + rewrite Hdata. subst epilogue. unfold track_end_bytes.
      rewrite app_assoc. reflexivity.
    + rewrite Hdec, Hsize. subst epilogue. unfold track_end_bytes.
      rewrite !length_app. simpl. lia.
  - rewrite Hfield, Hdata, Hc4. subst hdr. rewrite <- !app_assoc. reflexivity.
Qed.

Lemma length_field_counts_track_witness :
  let o := default_options 0 in
  let events := [note_on_at_0; note_off_at_384] in
  let g := record_events o events (recording_start o) in
  size (track g) + Z.of_nat (length (track_end_bytes 384 (track g))) <= INT_MAX /\
  be_decode (length_field (main o events 384)) =
    size (track g) + Z.of_nat (length (track_end_bytes 384 (track g))).
Proof.
  intros o events g.
  assert (size (track g) + Z.of_nat (length (track_end_bytes 384 (track g))) <= INT_MAX)
    as Hmax by (vm_compute; discriminate).
  split; [exact Hmax |].
  apply (length_field_counts_track o events 384 Hmax).
Defined.

(** The file of a note from tick 0 to tick 384 under the default settings,
    the queue standing at tick 384 when the recording stops. *)
Example note_file :
  contents (file (main (default_options 0) [note_on_at_0; note_off_at_384] 384)) =
  [0x4d; 0x54; 0x68; 0x64; 0; 0; 0; 6; 0; 0; 0; 1; 0x01; 0x80;
   0x4d; 0x54; 0x72; 0x6b; 0; 0; 0; 28;
   0x00; 0xff; 0x51; 0x03; 0x07; 0xa1; 0x20;
   0x00; 0xff; 0x58; 0x04; 0x04; 0x02; 0x18; 0x08;
   0x00; 0x90; 0x3c; 0x64;
   0x00; 0x80; 0x3c; 0x00;
   0x83; 0x00; 0xff; 0x2f; 0x00].
Proof. vm_compute. reflexivity. Qed.

(** * Further properties *)

(** ** Variable-length quantities, for every value *)

Lemma lor_high_bit z m :
  Z.land 0x80 m = 0 -> Z.lor 0x80 (Z.land z m) = 128 + Z.land z m.
Proof.
  intros Hm. pose proof (Z.add_lor_land 0x80 (Z.land z m)) as H.
  assert (Z.land 0x80 (Z.land z m) = 0) as H0.
  { rewrite (Z.land_comm z), Z.land_assoc, Hm. apply Z.land_0_l. }
  lia.
Qed.

Lemma land_vlq_top z : Z.land (Z.lor 0x80 (Z.land z 0x03)) 0x7f = Z.land z 0x03.
Proof.
  rewrite Z.land_lor_distr_l, <- Z.land_assoc.
  change (Z.land 0x80 0x7f) with 0. change (Z.land 0x03 0x7f) with 0x03.
  apply Z.lor_0_l.
Qed.

(** Below [2^28] the bytes of [var_value] are the variable-length quantity of
    the file format, and they read back as the value. *)
Theorem var_value_round_trip v :
  0 <= v < 2 ^ 28 ->
  var_value_bytes v = vlq_canonical v /\ vlq_decode (var_value_bytes v) = v.
Proof.
  intros Hv. rewrite var_value_bytes_ladder. split.
  - apply vlq_ladder_canonical, Hv.
  - apply vlq_decode_ladder, Hv.
Qed.

Lemma var_value_round_trip_witness :
  0 <= 1000000 < 2 ^ 28 /\ vlq_decode (var_value_bytes 1000000) = 1000000.
Proof. split; [lia | apply (var_value_round_trip 1000000); lia]. Defined.

(** From [2^28] on [var_value] keeps the bits 28 and 29 in a fifth byte and
    drops the higher ones: the bytes read back as [v mod 2^30]. *)
Theorem var_value_truncates v :
  0 <= v -> vlq_decode (var_value_bytes v) = v mod 2 ^ 30.
Proof.
  intros Hv. destruct (Z.lt_ge_cases v (2 ^ 28)) as [Hlt | Hge].
  - rewrite var_value_bytes_ladder, vlq_decode_ladder by lia.
    symmetry. apply Z.mod_small. lia.
  - rewrite var_value_bytes_ladder. unfold vlq_ladder, vlq_decode.
    change (1 ≪ 28) with (2 ^ 28). change (1 ≪ 21) with (2 ^ 21).
    change (1 ≪ 14) with (2 ^ 14). change (1 ≪ 7) with (2 ^ 7).
    destruct (Z.leb_spec (2 ^ 28) v); [| lia].
    destruct (Z.leb_spec (2 ^ 21) v); [| lia].
    destruct (Z.leb_spec (2 ^ 14) v); [| lia].
    destruct (Z.leb_spec (2 ^ 7) v); [| lia].
    cbn [app fold_left].
    rewrite land_vlq_top, !land_vlq_high.
    assert (Z.land (Z.land v 0x7f) 0x7f = v mod 128) as ->.
    { rewrite <- Z.land_assoc. change (Z.land 0x7f 0x7f) with (Z.ones 7).
      rewrite Z.land_ones by lia. reflexivity. }
    change 0x7f with (Z.ones 7). change 0x03 with (Z.ones 2).
    rewrite !Z.land_ones, !Z.shiftr_div_pow2 by lia.
    assert (v / 2 ^ 14 = v / 2 ^ 7 / 2 ^ 7) as ->
      by (rewrite Z.div_div by lia; reflexivity).
    assert (v / 2 ^ 21 = v / 2 ^ 7 / 2 ^ 7 / 2 ^ 7) as ->
      by (rewrite !Z.div_div by lia; reflexivity).
    assert (v / 2 ^ 28 = v / 2 ^ 7 / 2 ^ 7 / 2 ^ 7 / 2 ^ 7) as ->
      by (rewrite !Z.div_div by lia; reflexivity).
    change (2 ^ 7) with 128. change (2 ^ 2) with 4.
    change (2 ^ 30) with 1073741824.
    Z.div_mod_to_equations. lia.
Qed.

Lemma var_value_truncates_witness :
  0 <= 2 ^ 30 + 5 /\ vlq_decode (var_value_bytes (2 ^ 30 + 5)) = (2 ^ 30 + 5) mod 2 ^ 30.
Proof. split; [lia | apply (var_value_truncates (2 ^ 30 + 5)); lia]. Defined.

(** Whatever the value, every byte but the last has bit 7 set and the last
    has it clear, so the end of the quantity can be told from the bytes. *)
Theorem var_value_continuation v :
  exists init final,
    var_value_bytes v = init ++ [final] /\
    Forall (fun b => 0x80 <= b < 0x100) init /\
    0 <= final < 0x80.
Proof.
  rewrite var_value_bytes_ladder. unfold vlq_ladder.
  eexists _, (Z.land v 0x7f). rewrite !app_assoc.
  split; [reflexivity |]. split; [| apply land_7f_range].
  assert (forall z, 0x80 <= Z.lor 0x80 (Z.land z 0x7f) < 0x100) as Hhigh.
  { intros z. rewrite lor_high_bit by reflexivity.
    pose proof (land_7f_range z). lia. }
  assert (forall z, 0x80 <= Z.lor 0x80 (Z.land z 0x03) < 0x100) as Htop.
  { intros z. rewrite lor_high_bit by reflexivity.
    pose proof (land_low_range z 2 ltac:(lia)) as H. change (Z.ones 2) with 3 in H.
    change (2 ^ 2) with 4 in H. lia. }
  destruct (1 ≪ 28 <=? v), (1 ≪ 21 <=? v), (1 ≪ 14 <=? v), (1 ≪ 7 <=? v);
    cbn [app]; repeat (apply Forall_cons; split; [auto |]); apply Forall_nil; exact I.
Qed.

(** A negative value, which the clamp of [delta_time] never passes on but
    [write_track_end] can, is written as the single byte [v & 0x7f]. *)
Theorem var_value_negative v :
  v < 0 -> var_value_bytes v = [Z.land v 0x7f].
Proof.
  intros Hv. rewrite var_value_bytes_ladder. unfold vlq_ladder.
  change (1 ≪ 28) with (2 ^ 28). change (1 ≪ 21) with (2 ^ 21).
  change (1 ≪ 14) with (2 ^ 14). change (1 ≪ 7) with (2 ^ 7).
  destruct (Z.leb_spec (2 ^ 28) v); [lia |].
  destruct (Z.leb_spec (2 ^ 21) v); [lia |].
  destruct (Z.leb_spec (2 ^ 14) v); [lia |].
  destruct (Z.leb_spec (2 ^ 7) v); [lia |]. reflexivity.
Qed.

Lemma var_value_negative_witness :
  -1 < 0 /\ var_value_bytes (-1) = [Z.land (-1) 0x7f].
Proof. split; [lia | apply (var_value_negative (-1)); lia]. Defined.

(** ** The buffers during a recording *)

Lemma track_data_set_last_tick t tick : track_data (set_last_tick t tick) = track_data t.
Proof. reflexivity. Qed.

Lemma track_data_set_last_command t cmd :
  track_data (set_last_command t cmd) = track_data t.
Proof. reflexivity. Qed.

Lemma var_value_reachable t v : track_reachable t -> track_reachable (var_value t v).
Proof.
  intros H. unfold var_value.
  destruct (1 ≪ 28 <=? v), (1 ≪ 21 <=? v), (1 ≪ 14 <=? v), (1 ≪ 7 <=? v);
    repeat apply reachable_add_byte; exact H.
Qed.

Lemma delta_time_reachable t_start t ev :
  track_reachable t -> track_reachable (delta_time t_start t ev).
Proof.
  intros H. rewrite delta_time_clamp.
  apply reachable_last_tick, var_value_reachable, H.
Qed.

Lemma command_reachable t cmd : track_reachable t -> track_reachable (command t cmd).
Proof.
  intros H. unfold command. cbv zeta. apply reachable_last_command.
  destruct (negb _); [apply reachable_add_byte |]; exact H.
Qed.

Lemma fold_add_byte_reachable bytes : forall t,
  track_reachable t -> track_reachable (fold_left add_byte bytes t).
Proof.
  induction bytes as [| b bytes IH]; intros t H; simpl; [exact H |].
  apply IH, reachable_add_byte, H.
Qed.

(** Follows a nest of calls on the track down to the track it starts from. *)
Ltac reachable_chain :=
  lazymatch goal with
  | |- track_reachable (add_byte _ _) => simple apply reachable_add_byte; reachable_chain
  | |- track_reachable (var_value _ _) => simple apply var_value_reachable; reachable_chain
  | |- track_reachable (fold_left add_byte _ _) =>
      simple apply fold_add_byte_reachable; reachable_chain
  | |- track_reachable (delta_time _ _ _) =>
      simple apply delta_time_reachable; reachable_chain
  | |- track_reachable (command _ _) => simple apply command_reachable; reachable_chain
  | |- _ => idtac
  end.

Lemma record_event_reachable queue ev g :
  track_reachable (track g) -> track_reachable (track (record_event queue ev g)).
Proof.
  intros H. unfold record_event.
  destruct (negb (ev_queue ev =? queue) || negb (snd_seq_ev_is_tick ev)); [exact H |].
  set (g1 := if t_start g =? 0 then set_t_start g (time_tick ev) else g).
  assert (track g1 = track g) as Htr by (subst g1; destruct (t_start g =? 0); reflexivity).
  destruct (negb (dest_port ev =? 0)); [rewrite Htr; exact H |].
  cbv zeta. rewrite Htr.
  destruct (type ev); try destruct (ext ev); try destruct (to_uchar _ =? 0xf0);
    try destruct (Z.land (control_param ev) 0x7f <? 0x20);
    rewrite ?track_set_track, ?Htr; reachable_chain; exact H.
Qed.

Lemma record_tempo_reachable o : track_reachable (record_tempo o init_tracks).
Proof. unfold record_tempo. cbv zeta. reachable_chain. apply reachable_init. Qed.

(** The tracks of a recording are among those of the invariant above: what
    [main] records before the events and what [record_event] makes of any
    sequence of events is reached from the empty track by [add_byte] and the
    two assignments. *)
Theorem recording_reachable o events :
  track_reachable (track (record_events o events (recording_start o))).
Proof.
  assert (track_reachable (track (recording_start o))) as H0.
  { destruct (write_header_writes o
                {| t_start := 0;
                   track := if smpte_timing o then init_tracks
                            else record_tempo o init_tracks;
                   file := fopen; size_offset := 0 |} eq_refl) as (_ & _ & Htr & _).
    unfold recording_start. cbv zeta. rewrite Htr. cbn [track].
    destruct (smpte_timing o); [apply reachable_init | apply record_tempo_reachable]. }
  unfold record_events. generalize dependent (recording_start o).
  induction events as [| ev events IH]; intros g Hg; simpl; [exact Hg |].
  apply IH, record_event_reachable, Hg.
Qed.

(** Every byte that recording puts into the track is an [unsigned char]. *)
Theorem track_bytes_in_range t :
  track_reachable t -> Forall (fun b => 0 <= b < 256) (track_data t).
Proof.
  induction 1 as [| t byte Hr IH | t tick _ IH | t cmd _ IH].
  - apply Forall_nil. exact I.
  - rewrite add_byte_data by (apply track_reachable_wf, Hr).
    apply Forall_app. split; [exact IH |].
    apply Forall_cons. split; [apply to_uchar_range | apply Forall_nil; exact I].
  - rewrite track_data_set_last_tick. exact IH.
  - rewrite track_data_set_last_command. exact IH.
Qed.

Lemma track_bytes_in_range_witness :
  track_reachable (add_byte init_tracks 0x1ff) /\
  Forall (fun b => 0 <= b < 256) (track_data (add_byte init_tracks 0x1ff)).
Proof.
  assert (track_reachable (add_byte init_tracks 0x1ff)) as Hr
    by (apply reachable_add_byte, reachable_init).
  split; [exact Hr | apply (track_bytes_in_range _ Hr)].
Defined.

(** A buffer is linked only when a byte needs it: but for the first, no
    buffer of the chain is empty, and the chain has as many buffers as [size]
    bytes take. *)
Theorem buffers_as_needed t :
  track_reachable t ->
  (cur_buf t = 0%nat \/ 1 <= cur_buf_size t) /\
  Z.of_nat (length (first_buf t)) =
    if size t =? 0 then 1 else (size t - 1) / BUFFER_SIZE + 1.
Proof.
  intros Hr.
  assert (cur_buf t = 0%nat \/ 1 <= cur_buf_size t) as Hne.
  { induction Hr as [| t byte Hr IH | t tick _ IH | t cmd _ IH];
      [left; reflexivity | | exact IH | exact IH].
    pose proof (track_reachable_wf t Hr) as [_ _ Hsz _].
    unfold add_byte. destruct (Z.leb_spec BUFFER_SIZE (cur_buf_size t));
      cbn [cur_buf cur_buf_size]; right; lia. }
  split; [exact Hne |].
  pose proof (track_reachable_wf t Hr) as [Hcur _ Hsz Hsize].
  rewrite <- Hcur, Hsize. unfold BUFFER_SIZE in *.
  destruct (Z.eqb_spec (Z.of_nat (cur_buf t) * 4088 + cur_buf_size t) 0) as [H0 | H0].
  - destruct Hne; lia.
  - assert ((Z.of_nat (cur_buf t) * 4088 + cur_buf_size t - 1) / 4088 =
            Z.of_nat (cur_buf t)) as ->; [| lia].
    symmetry. apply (Z.div_unique _ 4088 _ (cur_buf_size t - 1)); lia.
Qed.

Lemma buffers_as_needed_witness :
  track_reachable (add_byte init_tracks 1) /\
  Z.of_nat (length (first_buf (add_byte init_tracks 1))) =
    if size (add_byte init_tracks 1) =? 0 then 1
    else (size (add_byte init_tracks 1) - 1) / BUFFER_SIZE + 1.
Proof.
  assert (track_reachable (add_byte init_tracks 1)) as Hr
    by (apply reachable_add_byte, reachable_init).
  split; [exact Hr | apply (buffers_as_needed _ Hr)].
Defined.

(** ** The messages of the events *)

Lemma split_14_bits x : Z.land x 0x7f + 128 * Z.land (x ≫ 7) 0x7f = x mod 2 ^ 14.
Proof.
  change 0x7f with (Z.ones 7). rewrite !Z.land_ones, Z.shiftr_div_pow2 by lia.
  change (2 ^ 7) with 128. change (2 ^ 14) with 16384.
  Z.div_mod_to_equations. lia.
Qed.

Lemma message_data_in_range ev : Forall (fun b => 0 <= b < 0x80) (message_data ev).
Proof.
  unfold message_data.
  destruct (type ev); try destruct (Z.ltb_spec (Z.land (control_param ev) 0x7f) 0x20);
    cbn [app];
    repeat (apply Forall_cons; split;
            [first [apply land_7f_range | pose proof (land_7f_range (control_param ev)); lia | lia] |]);
    apply Forall_nil; exact I.
Qed.

(** An accepted event of a channel kind is recorded as its delta time, its
    status byte unless that is the running status, and the bytes of the table;
    it becomes the running status and the last tick, and the file is not
    touched. *)
Theorem channel_message_recorded queue ev g st :
  accepted queue ev -> track_wf (track g) -> message_status ev = Some st ->
  let g' := record_event queue ev g in
  track_data (track g') =
    track_data (track g) ++ var_value_bytes (event_delta g ev) ++
    (if st =? last_command (track g) then [] else [st]) ++ message_data ev /\
  size (track g') =
    size (track g) +
    Z.of_nat (length (var_value_bytes (event_delta g ev) ++
                      (if st =? last_command (track g) then [] else [st]) ++
                      message_data ev)) /\
  last_command (track g') = st /\
  last_tick (track g') = event_tick (origin g ev) ev /\
  t_start g' = origin g ev /\
  file g' = file g.
Proof.
  intros Hacc Hwf Hst g'.
  destruct (record_event_message queue ev g st Hacc Hwf Hst) as ((_ & Hd & Hs) & Hc & Ht).
  destruct Hacc as (Hq & Htick & _).
  repeat split; try assumption.
  - apply record_event_origin; assumption.
  - apply record_event_file.
Qed.

Lemma channel_message_recorded_witness :
  let ev := note_event SND_SEQ_EVENT_KEYPRESS 0 10 3 60 100 in
  (accepted 0 ev /\ track_wf (track empty_globals) /\ message_status ev = Some 0xa3) /\
  last_command (track (record_event 0 ev empty_globals)) = 0xa3.
Proof.
  intros ev.
  assert (accepted 0 ev) as Hacc by (repeat split).
  split; [split; [exact Hacc | split; [exact init_tracks_wf | reflexivity]] |].
  apply (channel_message_recorded 0 ev empty_globals 0xa3 Hacc init_tracks_wf eq_refl).
Defined.

(** What such an event adds is a well-formed channel message: the status
    byte, when written, is a channel status ([0x80] to [0xef]), and every
    byte after it has bit 7 clear. *)
Theorem channel_message_well_formed queue ev g st :
  accepted queue ev -> track_wf (track g) -> message_status ev = Some st ->
  exists status data,
    track_data (track (record_event queue ev g)) =
      track_data (track g) ++ var_value_bytes (event_delta g ev) ++ status ++ data /\
    (status = [] \/ status = [st]) /\
    0x80 <= st < 0xf0 /\
    Forall (fun b => 0 <= b < 0x80) data.
Proof.
  intros Hacc Hwf Hst.
  destruct (record_event_message queue ev g st Hacc Hwf Hst) as ((_ & Hd & _) & _ & _).
  exists (if st =? last_command (track g) then [] else [st]), (message_data ev).
  split; [exact Hd |]. split; [destruct (st =? _); auto |].
  split; [apply (message_status_range ev), Hst | apply message_data_in_range].
Qed.

Lemma channel_message_well_formed_witness :
  let ev := control_event SND_SEQ_EVENT_NONREGPARAM 0 10 3 0x3fff (-1) in
  (accepted 0 ev /\ track_wf (track empty_globals) /\ message_status ev = Some 0xb3) /\
  exists status data,
    track_data (track (record_event 0 ev empty_globals)) =
      track_data (track empty_globals) ++
      var_value_bytes (event_delta empty_globals ev) ++ status ++ data /\
    (status = [] \/ status = [0xb3]) /\
    0x80 <= 0xb3 < 0xf0 /\
    Forall (fun b => 0 <= b < 0x80) data.
Proof.
  intros ev.
  assert (accepted 0 ev) as Hacc by (repeat split).
  split; [split; [exact Hacc | split; [exact init_tracks_wf | reflexivity]] |].
  apply (channel_message_well_formed 0 ev empty_globals 0xb3 Hacc init_tracks_wf eq_refl).
Defined.

(** A pitch bend is recorded as the 14-bit number [value + 8192], low seven
    bits first: for a bend from -8192 to 8191 the two data bytes give the
    value back. *)
Theorem pitch_bend_round_trip queue ev g :
  accepted queue ev -> track_wf (track g) ->
  type ev = SND_SEQ_EVENT_PITCHBEND ->
  - 8192 <= control_value ev < 8192 ->
  let st := Z.lor 0xe0 (Z.land (control_channel ev) 0xf) in
  exists lsb msb,
    track_data (track (record_event queue ev g)) =
      track_data (track g) ++ var_value_bytes (event_delta g ev) ++
      (if st =? last_command (track g) then [] else [st]) ++ [lsb; msb] /\
    0 <= lsb < 128 /\ 0 <= msb < 128 /\
    lsb + 128 * msb - 8192 = control_value ev.
Proof.
  intros Hacc Hwf Hty Hrange st.
  assert (message_status ev = Some st) as Hst
    by (unfold message_status; rewrite Hty; reflexivity).
  destruct (record_event_message queue ev g st Hacc Hwf Hst) as ((_ & Hd & _) & _ & _).
  unfold message_data in Hd. rewrite Hty in Hd.
  eexists _, _. split; [exact Hd |].
  split; [apply land_7f_range |]. split; [apply land_7f_range |].
  rewrite split_14_bits, Z.mod_small; lia.
Qed.

Lemma pitch_bend_round_trip_witness :
  let ev := control_event SND_SEQ_EVENT_PITCHBEND 0 10 1 0 (-8192) in
  (accepted 0 ev /\ track_wf (track empty_globals) /\
   type ev = SND_SEQ_EVENT_PITCHBEND /\ - 8192 <= control_value ev < 8192) /\
  exists lsb msb,
    track_data (track (record_event 0 ev empty_globals)) =
      track_data (track empty_globals) ++
      var_value_bytes (event_delta empty_globals ev) ++
      (if Z.lor 0xe0 (Z.land (control_channel ev) 0xf) =? last_command (track empty_globals)
       then [] else [Z.lor 0xe0 (Z.land (control_channel ev) 0xf)]) ++ [lsb; msb] /\
    0 <= lsb < 128 /\ 0 <= msb < 128 /\
    lsb + 128 * msb - 8192 = control_value ev.
Proof.
  intros ev.
  assert (accepted 0 ev) as Hacc by (repeat split).
  assert (- 8192 <= control_value ev < 8192) as Hr by (subst ev; simpl; lia).
  split; [split; [exact Hacc | split; [exact init_tracks_wf | split; [reflexivity | exact Hr]]] |].
  apply (pitch_bend_round_trip 0 ev empty_globals Hacc init_tracks_wf eq_refl Hr).
Defined.

(** The two messages of a Controller14 event with [param < 0x20] carry the
    14 low bits of the value, high seven first: the data bytes give back
    [value mod 2^14], the value itself when it is a 14-bit number. *)
Theorem control14_round_trip queue ev g :
  accepted queue ev -> track_wf (track g) ->
  type ev = SND_SEQ_EVENT_CONTROL14 ->
  0 <= control_param ev < 0x20 ->
  let st := Z.lor 0xb0 (Z.land (control_channel ev) 0xf) in
  exists msb lsb,
    track_data (track (record_event queue ev g)) =
      track_data (track g) ++ var_value_bytes (event_delta g ev) ++
      (if st =? last_command (track g) then [] else [st]) ++
      [control_param ev; msb; 0; control_param ev + 0x20; lsb] /\
    0 <= msb < 128 /\ 0 <= lsb < 128 /\
    128 * msb + lsb = control_value ev mod 2 ^ 14.
Proof.
  intros Hacc Hwf Hty Hparam st.
  assert (message_status ev = Some st) as Hst
    by (unfold message_status; rewrite Hty; reflexivity).
  destruct (record_event_message queue ev g st Hacc Hwf Hst) as ((_ & Hd & _) & _ & _).
  unfold message_data in Hd. rewrite Hty in Hd.
  rewrite (land_7f_small (control_param ev)) in Hd by lia.
  destruct (Z.ltb_spec (control_param ev) 0x20) as [_ | ?]; [| lia].
  eexists _, _. split; [exact Hd |].
  split; [apply land_7f_range |]. split; [apply land_7f_range |].
  rewrite <- split_14_bits. lia.
Qed.

Lemma control14_round_trip_witness :
  let ev := control_event SND_SEQ_EVENT_CONTROL14 0 10 2 7 0x1234 in
  (accepted 0 ev /\ track_wf (track empty_globals) /\
   type ev = SND_SEQ_EVENT_CONTROL14 /\ 0 <= control_param ev < 0x20) /\
  exists msb lsb,
    track_data (track (record_event 0 ev empty_globals)) =
      track_data (track empty_globals) ++
      var_value_bytes (event_delta empty_globals ev) ++
      (if Z.lor 0xb0 (Z.land (control_channel ev) 0xf) =? last_command (track empty_globals)
       then [] else [Z.lor 0xb0 (Z.land (control_channel ev) 0xf)]) ++
      [control_param ev; msb; 0; control_param ev + 0x20; lsb] /\
    0 <= msb < 128 /\ 0 <= lsb < 128 /\
    128 * msb + lsb = control_value ev mod 2 ^ 14.
Proof.
  intros ev.
  assert (accepted 0 ev) as Hacc by (repeat split).
  assert (0 <= control_param ev < 0x20) as Hp by (subst ev; simpl; lia).
  split; [split; [exact Hacc | split; [exact init_tracks_wf | split; [reflexivity | exact Hp]]] |].
  apply (control14_round_trip 0 ev empty_globals Hacc init_tracks_wf eq_refl Hp).
Defined.

(** A registered or non-registered parameter event makes four controller
    messages under one status byte, the last three with delta time 0: the
    parameter number on controllers [0x64], [0x65] (registered) or [0x62],
    [0x63] (non-registered), low seven bits first, then the value on
    controllers [0x06] and [0x26], high seven bits first.  Number and value
    are recorded modulo [2^14]. *)
Theorem parameter_event_recorded queue ev g :
  accepted queue ev -> track_wf (track g) ->
  type ev = SND_SEQ_EVENT_NONREGPARAM \/ type ev = SND_SEQ_EVENT_REGPARAM ->
  let st := Z.lor 0xb0 (Z.land (control_channel ev) 0xf) in
  let num_lsb :=
    match type ev with SND_SEQ_EVENT_REGPARAM => 0x64 | _ => 0x62 end in
  exists p_lsb p_msb v_msb v_lsb,
    track_data (track (record_event queue ev g)) =
      track_data (track g) ++ var_value_bytes (event_delta g ev) ++
      (if st =? last_command (track g) then [] else [st]) ++
      [num_lsb; p_lsb; 0; num_lsb + 1; p_msb; 0; 0x06; v_msb; 0; 0x26; v_lsb] /\
    Forall (fun b => 0 <= b < 128) [p_lsb; p_msb; v_msb; v_lsb] /\
    p_lsb + 128 * p_msb = control_param ev mod 2 ^ 14 /\
    128 * v_msb + v_lsb = control_value ev mod 2 ^ 14.
Proof.
  intros Hacc Hwf Hty st num_lsb.
  assert (message_status ev = Some st) as Hst
    by (unfold message_status; destruct Hty as [-> | ->]; reflexivity).
  destruct (record_event_message queue ev g st Hacc Hwf Hst) as ((_ & Hd & _) & _ & _).
  unfold message_data in Hd. subst num_lsb.
  exists (Z.land (control_param ev) 0x7f), (Z.land (control_param ev ≫ 7) 0x7f),
         (Z.land (control_value ev ≫ 7) 0x7f), (Z.land (control_value ev) 0x7f).
  split; [destruct Hty as [Hty | Hty]; rewrite Hty in Hd |- *; exact Hd |].
  split.
  - repeat (apply Forall_cons; split; [apply land_7f_range |]). apply Forall_nil. exact I.
  - split; [apply split_14_bits |]. rewrite <- split_14_bits. lia.
Qed.

Lemma parameter_event_recorded_witness :
  let ev := control_event SND_SEQ_EVENT_REGPARAM 0 10 2 0x0102 0x2000 in
  (accepted 0 ev /\ track_wf (track empty_globals) /\
   (type ev = SND_SEQ_EVENT_NONREGPARAM \/ type ev = SND_SEQ_EVENT_REGPARAM)) /\
  exists p_lsb p_msb v_msb v_lsb,
    track_data (track (record_event 0 ev empty_globals)) =
      track_data (track empty_globals) ++
      var_value_bytes (event_delta empty_globals ev) ++
      (if Z.lor 0xb0 (Z.land (control_channel ev) 0xf) =? last_command (track empty_globals)
       then [] else [Z.lor 0xb0 (Z.land (control_channel ev) 0xf)]) ++
      [0x64; p_lsb; 0; 0x64 + 1; p_msb; 0; 0x06; v_msb; 0; 0x26; v_lsb] /\
    Forall (fun b => 0 <= b < 128) [p_lsb; p_msb; v_msb; v_lsb] /\
    p_lsb + 128 * p_msb = control_param ev mod 2 ^ 14 /\
    128 * v_msb + v_lsb = control_value ev mod 2 ^ 14.
Proof.
  intros ev.
  assert (accepted 0 ev) as Hacc by (repeat split).
  split; [split; [exact Hacc | split; [exact init_tracks_wf | right; reflexivity]] |].
  apply (parameter_event_recorded 0 ev empty_globals Hacc init_tracks_wf
           (or_intror eq_refl)).
Defined.

(** A SysEx event with a payload is recorded as its delta time, the status
    byte [0xf0] when the payload starts with [0xf0] and [0xf7] otherwise, the
    length of the whole payload, and the whole payload, its first byte
    included.  The status byte is written whenever [last_command] is a channel
    status or 0, which it always is; running status is cancelled. *)
Theorem sysex_recorded queue ev g first rest :
  accepted queue ev -> track_wf (track g) ->
  type ev = SND_SEQ_EVENT_SYSEX -> ext ev = first :: rest ->
  last_command (track g) < 0xf0 ->
  let st := if to_uchar first =? 0xf0 then 0xf0 else 0xf7 in
  let g' := record_event queue ev g in
  track_data (track g') =
    track_data (track g) ++ var_value_bytes (event_delta g ev) ++ [st] ++
    var_value_bytes (to_int (Z.of_nat (length (first :: rest)))) ++
    map to_uchar (first :: rest) /\
  last_command (track g') = 0 /\
  last_tick (track g') = event_tick (origin g ev) ev.
Proof.
  intros Hacc Hwf Hty Hext Hcmd st g'.
  destruct (record_event_sysex queue ev g first rest Hacc Hwf Hty Hext)
    as ((_ & Hd & _) & Hc & Ht).
  fold st in Hd. rewrite Hext in Hd.
  split; [| split; assumption].
  subst g'. rewrite Hd.
  destruct (Z.eqb_spec st (last_command (track g))) as [Heq | _]; [| reflexivity].
  subst st. destruct (to_uchar first =? 0xf0); lia.
Qed.

Lemma sysex_recorded_witness :
  let ev := sysex_event 0 20 [0xf0; 0x7e; 0x7f; 0x09; 0x01; 0xf7] in
  (accepted 0 ev /\ track_wf (track empty_globals) /\
   type ev = SND_SEQ_EVENT_SYSEX /\ last_command (track empty_globals) < 0xf0) /\
  last_command (track (record_event 0 ev empty_globals)) = 0.
Proof.
  intros ev.
  assert (accepted 0 ev) as Hacc by (repeat split).
  assert (last_command (track empty_globals) < 0xf0) as Hc by (simpl; lia).
  split; [split; [exact Hacc | split; [exact init_tracks_wf | split; [reflexivity | exact Hc]]] |].
  apply (sysex_recorded 0 ev empty_globals _ _ Hacc init_tracks_wf eq_refl eq_refl Hc).
Defined.

(** An event that is not accepted is not recorded: the track and the file
    stay as they are.  One that our queue did not stamp in ticks changes
    nothing at all; one for another port still sets the time origin. *)
Theorem discarded_event queue ev g :
  ~ accepted queue ev ->
  track (record_event queue ev g) = track g /\
  file (record_event queue ev g) = file g /\
  (ev_queue ev <> queue \/ snd_seq_ev_is_tick ev = false ->
   record_event queue ev g = g) /\
  (ev_queue ev = queue -> snd_seq_ev_is_tick ev = true ->
   t_start (record_event queue ev g) = origin g ev).
Proof.
  intros Hnot.
  split; [| split; [apply record_event_file | split;
    [apply record_event_filtered | apply record_event_origin]]].
  destruct (Z.eq_dec (ev_queue ev) queue) as [Hq | Hq];
    [| rewrite record_event_filtered by (left; exact Hq); reflexivity].
  destruct (snd_seq_ev_is_tick ev) eqn:Htick;
    [| rewrite record_event_filtered by (right; exact Htick); reflexivity].
  destruct (Z.eq_dec (dest_port ev) 0) as [Hport | Hport];
    [| apply record_event_other_port, Hport].
  exfalso. apply Hnot. repeat split; assumption.
Qed.

Lemma discarded_event_witness :
  let ev := note_event SND_SEQ_EVENT_NOTEON 1 10 0 60 100 in
  ~ accepted 0 ev /\ record_event 0 ev empty_globals = empty_globals.
Proof.
  intros ev.
  assert (~ accepted 0 ev) as Hnot by (intros [Hq _]; discriminate Hq).
  split; [exact Hnot |].
  apply (discarded_event 0 ev empty_globals Hnot). left. discriminate.
Defined.

Lemma record_event_last_command queue ev g :
  track_wf (track g) ->
  last_command (track g) = 0 \/ 0x80 <= last_command (track g) < 0xf0 ->
  last_command (track (record_event queue ev g)) = 0 \/
  0x80 <= last_command (track (record_event queue ev g)) < 0xf0.
Proof.
  intros Hwf Hc.
  destruct (Z.eq_dec (ev_queue ev) queue) as [Hq | Hq];
    [| rewrite record_event_filtered by (left; exact Hq); exact Hc].
  destruct (snd_seq_ev_is_tick ev) eqn:Htick;
    [| rewrite record_event_filtered by (right; exact Htick); exact Hc].
  destruct (Z.eq_dec (dest_port ev) 0) as [Hport | Hport];
    [| rewrite record_event_other_port by exact Hport; exact Hc].
  assert (accepted queue ev) as Hacc by (repeat split; assumption).
  destruct (message_status ev) as [st |] eqn:Hst.
  - destruct (record_event_message queue ev g st Hacc Hwf Hst) as (_ & -> & _).
    right. apply (message_status_range ev), Hst.
  - unfold message_status in Hst.
    destruct (type ev) eqn:Hty; try discriminate.
    + destruct (ext ev) as [| first rest] eqn:Hext.
      * rewrite record_event_ignored by (right; split; assumption). exact Hc.
      * destruct (record_event_sysex queue ev g first rest Hacc Hwf Hty Hext)
          as (_ & -> & _).
        left. reflexivity.
    + rewrite record_event_ignored by (left; eexists; exact Hty). exact Hc.
Qed.

(** Throughout a recording [last_command] is 0 or a channel status byte, never
    [0xf0] or more: so the status byte of a SysEx event is always written, and
    a channel event after it always writes its own. *)
Theorem last_command_is_channel_status o events :
  let t := track (record_events o events (recording_start o)) in
  last_command t = 0 \/ 0x80 <= last_command t < 0xf0.
Proof.
  intros t. subst t.
  destruct (recording_start_spec o) as (Hwf0 & _ & _).
  assert (last_command (track (recording_start o)) = 0) as H0.
  { destruct (write_header_writes o
                {| t_start := 0;
                   track := if smpte_timing o then init_tracks
                            else record_tempo o init_tracks;
                   file := fopen; size_offset := 0 |} eq_refl) as (_ & _ & Htr & _).
    unfold recording_start. cbv zeta. rewrite Htr. cbn [track].
    destruct (smpte_timing o); [reflexivity |].
    unfold record_tempo. cbv zeta.
    repeat first [rewrite add_byte_last_command | rewrite var_value_last_command].
    reflexivity. }
  assert (last_command (track (recording_start o)) = 0 \/
          0x80 <= last_command (track (recording_start o)) < 0xf0) as Hc
    by (left; exact H0).
  clear H0. unfold record_events. revert Hwf0 Hc.
  generalize (recording_start o).
  induction events as [| ev events IH]; intros g Hwf Hc; simpl; [exact Hc |].
  apply IH; [apply record_event_wf, Hwf | apply record_event_last_command; assumption].
Qed.

Lemma record_events_origin_kept o events : forall g,
  t_start g <> 0 -> t_start (record_events o events g) = t_start g.
Proof.
  unfold record_events.
  induction events as [| ev events IH]; intros g Hne; simpl; [reflexivity |].
  rewrite IH; rewrite record_event_origin_kept by exact Hne; [reflexivity | exact Hne].
Qed.

Lemma record_events_skipped o skipped : forall g,
  Forall (fun ev => ev_queue ev <> queue o \/ snd_seq_ev_is_tick ev = false) skipped ->
  record_events o skipped g = g.
Proof.
  unfold record_events.
  induction skipped as [| ev skipped IH]; intros g H; simpl; [reflexivity |].
  inversion H as [| ? ? Hev Hrest]; subst.
  rewrite record_event_filtered by exact Hev. apply IH, Hrest.
Qed.

(** The time origin of a recording is the tick of the first event that our
    queue stamped in ticks, whatever port that event is for and whatever
    events come before it without such a stamp or after it, provided that
    tick is not 0. *)
Theorem origin_is_first_stamped_tick o skipped first events :
  Forall (fun ev => ev_queue ev <> queue o \/ snd_seq_ev_is_tick ev = false) skipped ->
  ev_queue first = queue o -> snd_seq_ev_is_tick first = true ->
  time_tick first <> 0 ->
  t_start (record_events o (skipped ++ first :: events) (recording_start o)) =
    time_tick first.
Proof.
  intros Hskip Hq Htick Hne.
  unfold record_events. rewrite fold_left_app. fold (record_events o skipped (recording_start o)).
  rewrite record_events_skipped by exact Hskip. simpl fold_left.
  fold (record_events o events (record_event (queue o) first (recording_start o))).
  assert (t_start (record_event (queue o) first (recording_start o)) = time_tick first) as H1.
  { rewrite record_event_origin by assumption. reflexivity. }
  rewrite record_events_origin_kept; [exact H1 | congruence].
Qed.

Lemma origin_is_first_stamped_tick_witness :
  let o := default_options 0 in
  let other := note_event SND_SEQ_EVENT_NOTEON 1 7 0 60 100 in
  (Forall (fun ev => ev_queue ev <> queue o \/ snd_seq_ev_is_tick ev = false) [other] /\
   ev_queue tick_one_event = queue o /\ snd_seq_ev_is_tick tick_one_event = true /\
   time_tick tick_one_event <> 0) /\
  t_start (record_events o ([other] ++ [tick_one_event; far_event]) (recording_start o)) =
    time_tick tick_one_event.
Proof.
  intros o other.
  assert (time_tick tick_one_event <> 0) as Hne by discriminate.
  assert (Forall (fun ev => ev_queue ev <> queue o \/ snd_seq_ev_is_tick ev = false)
            [other]) as Hskip.
  { constructor; [left; discriminate | constructor]. }
  split; [split; [exact Hskip | split; [reflexivity | split; [reflexivity | exact Hne]]] |].
  apply (origin_is_first_stamped_tick o [other] tick_one_event [far_event]
           Hskip eq_refl eq_refl Hne).
Defined.

(** ** The pieces of the file *)

(** [var_value_direct] puts into the file the bytes that [var_value] puts
    into the track, and returns how many they are. *)
Theorem var_value_direct_writes v f :
  at_end f ->
  contents (var_value_direct v f).2 = contents f ++ var_value_bytes v /\
  at_end (var_value_direct v f).2 /\
  (var_value_direct v f).1 = Z.of_nat (length (var_value_bytes v)).
Proof.
  intros Hend.
  destruct (writes_var_value_direct f f v [] (writes_refl f Hend)) as [[He Hc] Hn].
  rewrite app_nil_l in Hc. split; [exact Hc | split; assumption].
Qed.

Lemma var_value_direct_writes_witness :
  at_end fopen /\
  contents (var_value_direct 384 fopen).2 = contents fopen ++ var_value_bytes 384.
Proof.
  assert (at_end fopen) as H by reflexivity.
  split; [exact H | apply (var_value_direct_writes 384 fopen H)].
Defined.

(** [write_header], on a file that is at its end, appends 22 bytes: the
    header chunk, the tag of the track chunk and the size of the track at
    that moment (not zero when the tempo is recorded already); it keeps in
    [size_offset] the place of these last four bytes and leaves the track
    alone. *)
Theorem write_header_layout o g :
  at_end (file g) ->
  let g' := write_header o g in
  contents (file g') =
    contents (file g) ++ header_chunk o ++ track_tag ++ length_bytes (size (track g)) /\
  length (contents (file g')) = (length (contents (file g)) + 22)%nat /\
  at_end (file g') /\
  size_offset g' = pos (file g) + 18 /\
  take 4 (drop (Z.to_nat (size_offset g')) (contents (file g'))) =
    length_bytes (size (track g)) /\
  track g' = track g /\ t_start g' = t_start g.
Proof.
  intros Hend g'.
  destruct (write_header_writes o g Hend) as ([He Hc] & Hoff & Htr & Hts).
  fold g' in He, Hc, Hoff, Htr, Hts.
  split; [exact Hc |]. split; [rewrite Hc, !length_app; reflexivity |].
  split; [exact He |]. split; [exact Hoff |]. split; [| split; assumption].
  rewrite Hoff, Hc, Hend.
  replace (Z.to_nat (Z.of_nat (length (contents (file g))) + 18))
    with (length (contents (file g) ++ header_chunk o ++ track_tag))
    by (rewrite !length_app; simpl; lia).
  rewrite !app_assoc, drop_app_length. reflexivity.
Qed.

Lemma write_header_layout_witness :
  let g := {| t_start := 0; track := record_tempo (default_options 0) init_tracks;
              file := fopen; size_offset := 0 |} in
  at_end (file g) /\ size_offset (write_header (default_options 0) g) = pos (file g) + 18.
Proof.
  intros g. assert (at_end (file g)) as H by reflexivity.
  split; [exact H | apply (write_header_layout (default_options 0) g H)].
Defined.

Lemma lor_shiftl_8 a k :
  0 <= a < 256 -> 0 <= k ->
  Z.lor a (k ≪ 8) ≫ 8 = k /\ Z.land (Z.lor a (k ≪ 8)) 0xff = a.
Proof.
  intros Ha Hk. split.
  - rewrite Z.shiftr_lor, Z.shiftr_shiftl_l, Z.sub_diag, Z.shiftl_0_r by lia.
    rewrite Z.shiftr_div_pow2, Z.div_small by lia. apply Z.lor_0_l.
  - change 0xff with (Z.ones 8). rewrite Z.land_ones by lia.
    rewrite <- Z.land_ones by lia. rewrite Z.land_lor_distr_l.
    rewrite (Z.land_ones a), Z.mod_small by lia.
    rewrite Z.land_ones, Z.shiftl_mul_pow2, Z.mod_mul by lia.
    apply Z.lor_0_r.
Qed.

(** The two bytes of the time division in a new file, for the settings that
    the option checks of [main] let through.  Without SMPTE timing they are
    the ticks per beat, big-endian, a positive 16-bit number; with it, the
    first byte is [256 - frames], the negative frame rate, and the second the
    ticks per frame. *)
Theorem time_division_bytes o g :
  file g = fopen ->
  let division := take 2 (drop 12 (contents (file (write_header o g)))) in
  (smpte_timing o = false -> 1 <= ticks o <= 0x7fff ->
   division = [ticks o / 256; ticks o mod 256] /\ ticks o / 256 < 0x80) /\
  (smpte_timing o = true -> In (frames o) [24; 25; 29; 30] -> 1 <= ticks o <= 0xff ->
   division = [256 - frames o; ticks o] /\ 0x80 <= 256 - frames o < 0x100).
Proof.
  intros Hfile division.
  assert (at_end (file g)) as Hend by (rewrite Hfile; reflexivity).
  destruct (write_header_writes o g Hend) as ([_ Hc] & _).
  assert (division = drop 12 (header_chunk o)) as ->.
  { subst division. rewrite Hc, Hfile. reflexivity. }
  unfold header_chunk, time_division. cbn [drop]. split.
  - intros -> Hticks.
    rewrite Z.shiftr_div_pow2 by lia. change (2 ^ 8) with 256.
    change 0xff with (Z.ones 8). rewrite Z.land_ones by lia. change (2 ^ 8) with 256.
    assert (0 <= ticks o / 256 < 128) as Hhi
      by (split; [apply Z.div_pos; lia | apply Z.div_lt_upper_bound; lia]).
    rewrite to_uchar_small by lia. split; [reflexivity | lia].
  - intros -> Hframes Hticks.
    destruct (lor_shiftl_8 (ticks o) (0x100 - frames o)) as [Hhi Hlo];
      [lia | simpl in Hframes; lia |].
    rewrite Hhi, Hlo.
    simpl in Hframes.
    destruct Hframes as [<- | [<- | [<- | [<- | []]]]]; split; (reflexivity || lia).
Qed.

Lemma time_division_bytes_witness :
  let o := {| queue := 0; smpte_timing := true; beats := 120; frames := 25;
              ticks := 40; ts_num := 4; ts_dd := 2 |} in
  (file empty_globals = fopen /\ smpte_timing o = true /\
   In (frames o) [24; 25; 29; 30] /\ 1 <= ticks o <= 0xff) /\
  take 2 (drop 12 (contents (file (write_header o empty_globals)))) =
    [256 - frames o; ticks o].
Proof.
  intros o.
  assert (In (frames o) [24; 25; 29; 30]) as Hf by (right; left; reflexivity).
  assert (1 <= ticks o <= 0xff) as Ht by (subst o; simpl; lia).
  split; [split; [reflexivity | split; [reflexivity | split; assumption]] |].
  apply (proj2 (time_division_bytes o empty_globals eq_refl) eq_refl Hf Ht).
Defined.

(** [flush_buffer], on a file that is at its end, appends the data of the
    track, chunk by chunk, [size] bytes in all, and changes nothing else. *)
Theorem flush_buffer_writes g :
  track_wf (track g) -> at_end (file g) ->
  let g' := flush_buffer g in
  contents (file g') = contents (file g) ++ track_data (track g) /\
  Z.of_nat (length (contents (file g'))) =
    Z.of_nat (length (contents (file g))) + size (track g) /\
  at_end (file g') /\
  track g' = track g /\ t_start g' = t_start g /\ size_offset g' = size_offset g.
Proof.
  intros Hwf Hend g'.
  destruct (writes_flush_buffer g Hend) as [He Hc]. fold g' in He, Hc.
  split; [exact Hc |]. split; [| split; [exact He | repeat split]].
  rewrite Hc, length_app, (track_wf_size _ Hwf). lia.
Qed.

Lemma flush_buffer_writes_witness :
  let g := set_track empty_globals (add_byte init_tracks 0x90) in
  (track_wf (track g) /\ at_end (file g)) /\
  contents (file (flush_buffer g)) = contents (file g) ++ track_data (track g).
Proof.
  intros g.
  assert (track_wf (track g)) as Hwf by (apply add_byte_wf, init_tracks_wf).
  assert (at_end (file g)) as Hend by reflexivity.
  split; [split; assumption | apply (flush_buffer_writes g Hwf Hend)].
Defined.



Lemma track_end_bytes_eq queue_tick t :
  track_end_bytes queue_tick t =
  var_value_bytes (to_int (to_uint (to_int queue_tick - last_tick t))) ++
  [0xff; 0x2f; 0x00].
Proof. reflexivity. Qed.

(** [write_track_end], on a file that is at its end, appends the last delta
    time and the end-of-track event [ff 2f 00], between 4 and 8 bytes, and
    returns their number.  The delta time is the tick of the queue minus
    [last_tick], as an [int], and it is not clamped: a negative one is
    written as the single byte of its low seven bits. *)
Theorem write_track_end_writes_end queue_tick g :
  at_end (file g) ->
  let d := to_int (to_uint (to_int queue_tick - last_tick (track g))) in
  let r := write_track_end queue_tick g in
  contents (file r.2) =
    contents (file g) ++ var_value_bytes d ++ [0xff; 0x2f; 0x00] /\
  r.1 = Z.of_nat (length (var_value_bytes d)) + 3 /\
  4 <= r.1 <= 8 /\
  (d < 0 -> contents (file r.2) =
            contents (file g) ++ [Z.land d 0x7f; 0xff; 0x2f; 0x00]) /\
  track r.2 = track g /\ size_offset r.2 = size_offset g.
Proof.
  intros Hend.
  destruct (write_track_end_writes queue_tick g (file g) [] (writes_refl _ Hend))
    as ([_ Hc] & Hn & Htr & Hoff).
  rewrite track_end_bytes_eq in Hc, Hn. cbv zeta.
  set (r := write_track_end queue_tick g) in *. clearbody r.
  set (d := to_int (to_uint (to_int queue_tick - last_tick (track g)))) in *. clearbody d.
  rewrite app_nil_l in Hc. rewrite length_app in Hn.
  assert (r.1 = Z.of_nat (length (var_value_bytes d)) + 3) as Hn'
    by (rewrite Hn, Nat2Z.inj_add; f_equal).
  split; [exact Hc |]. split; [exact Hn' |]. split; [| split; [| split; assumption]].
  - rewrite Hn', var_value_bytes_ladder, vlq_ladder_length.
    destruct (1 ≪ 28 <=? d), (1 ≪ 21 <=? d), (1 ≪ 14 <=? d), (1 ≪ 7 <=? d); lia.
  - intros Hneg. rewrite Hc, var_value_bytes_ladder. unfold vlq_ladder.
    assert (forall k, 0 <= k -> (1 ≪ k <=? d) = false) as Hk.
    { intros k Hk. apply Z.leb_gt. rewrite Z.shiftl_1_l.
      pose proof (Z.pow_pos_nonneg 2 k). lia. }
    rewrite !Hk by lia. reflexivity.
Qed.

Lemma write_track_end_writes_end_witness :
  at_end (file empty_globals) /\
  (write_track_end 384 empty_globals).1 =
    Z.of_nat (length (var_value_bytes
                        (to_int (to_uint (to_int 384 - last_tick (track empty_globals)))))) + 3.
Proof.
  assert (at_end (file empty_globals)) as H by reflexivity.
  split; [exact H | apply (write_track_end_writes_end 384 empty_globals H)].
Defined.

Lemma be_decode_3_bytes u :
  0 <= u < 2 ^ 24 ->
  be_decode [to_uchar (u ≫ 16); to_uchar (u ≫ 8); to_uchar u] = u.
Proof.
  intros Hu. unfold be_decode, to_uchar. cbn [fold_left].
  rewrite !Z.shiftr_div_pow2 by lia.
  assert (u / 2 ^ 16 = u / 2 ^ 8 / 2 ^ 8) as -> by (rewrite Z.div_div by lia; reflexivity).
  change (2 ^ 8) with 256. change (2 ^ 24) with 16777216 in Hu.
  Z.div_mod_to_equations. lia.
Qed.

(** The block that [main] records before the events: a tempo event and a
    time signature event, 15 bytes, written without [command], so that
    [last_command] is not changed.  For the tempos that [main] accepts, 4 to
    6000 beats per minute, the three tempo bytes are the microseconds per
    quarter note [60000000 / beats], big-endian. *)
Theorem record_tempo_bytes o t :
  track_wf t -> 4 <= beats o <= 6000 ->
  exists t2 t1 t0,
    track_data (record_tempo o t) =
      track_data t ++
      [0x00; 0xff; 0x51; 0x03; t2; t1; t0;
       0x00; 0xff; 0x58; 0x04; to_uchar (ts_num o); to_uchar (ts_dd o); 24; 8] /\
    be_decode [t2; t1; t0] = 60000000 / beats o /\
    size (record_tempo o t) = size t + 15 /\
    last_command (record_tempo o t) = last_command t /\
    last_tick (record_tempo o t) = last_tick t.
Proof.
  intros Hwf Hbeats.
  assert (appends t (record_tempo o t)
            ([] ++ [0x00; 0xff; 0x51; 0x03;
              to_uchar ((60000000 ÷ beats o) ≫ 16); to_uchar ((60000000 ÷ beats o) ≫ 8);
              to_uchar (60000000 ÷ beats o);
              0x00; 0xff; 0x58; 0x04; to_uchar (ts_num o); to_uchar (ts_dd o); 24; 8]))
    as (_ & Hd & Hs).
  { unfold record_tempo. cbv zeta.
    eapply appends_eq; [| appends_chain; exact Hwf].
    rewrite !var_value_bytes_ladder.
    rewrite ?app_nil_l, <- ?app_assoc. reflexivity. }
  rewrite app_nil_l in Hd, Hs.
  eexists _, _, _. split; [exact Hd |]. split.
  - rewrite be_decode_3_bytes.
    + apply Z.quot_div_nonneg; lia.
    + rewrite Z.quot_div_nonneg by lia. split.
      * apply Z.div_pos; lia.
      * apply Z.div_lt_upper_bound; lia.
  - split; [rewrite Hs; reflexivity |].
    unfold record_tempo. cbv zeta.
    split.
    + repeat first [rewrite add_byte_last_command | rewrite var_value_last_command].
      reflexivity.
    + repeat first [rewrite add_byte_last_tick | rewrite var_value_last_tick].
      reflexivity.
Qed.

Lemma record_tempo_bytes_witness :
  (track_wf init_tracks /\ 4 <= beats (default_options 0) <= 6000) /\
  size (record_tempo (default_options 0) init_tracks) = size init_tracks + 15.
Proof.
  assert (4 <= beats (default_options 0) <= 6000) as Hb by (simpl; lia).
  split; [split; [exact init_tracks_wf | exact Hb] |].
  destruct (record_tempo_bytes (default_options 0) init_tracks init_tracks_wf Hb)
    as (t2 & t1 & t0 & _ & _ & Hs & _).
  exact Hs.
Defined.

Lemma record_event_appends queue ev g :
  track_wf (track g) ->
  exists bytes, appends (track g) (track (record_event queue ev g)) bytes.
Proof.
  intros Hwf.
  destruct (Z.eq_dec (ev_queue ev) queue) as [Hq | Hq];
    [| rewrite record_event_filtered by (left; exact Hq);
       exists []; apply appends_refl, Hwf].
  destruct (snd_seq_ev_is_tick ev) eqn:Htick;
    [| rewrite record_event_filtered by (right; exact Htick);
       exists []; apply appends_refl, Hwf].
  destruct (Z.eq_dec (dest_port ev) 0) as [Hport | Hport];
    [| rewrite record_event_other_port by exact Hport;
       exists []; apply appends_refl, Hwf].
  assert (accepted queue ev) as Hacc by (repeat split; assumption).
  destruct (message_status ev) as [st |] eqn:Hst.
  - eexists. apply (record_event_message queue ev g st Hacc Hwf Hst).
  - unfold message_status in Hst.
    destruct (type ev) eqn:Hty; try discriminate.
    + destruct (ext ev) as [| first rest] eqn:Hext.
      * rewrite record_event_ignored by (right; split; assumption).
        exists []. apply appends_refl, Hwf.
      * eexists. apply (record_event_sysex queue ev g first rest Hacc Hwf Hty Hext).
    + rewrite record_event_ignored by (left; eexists; exact Hty).
      exists []. apply appends_refl, Hwf.
Qed.

(** Recording only appends: whatever the events, the data that the track
    held before them is the beginning of the data it holds after them, and
    [size] grows by the number of bytes added. *)
Theorem recording_only_appends o events g :
  track_wf (track g) ->
  exists bytes,
    track_data (track (record_events o events g)) = track_data (track g) ++ bytes /\
    size (track (record_events o events g)) = size (track g) + Z.of_nat (length bytes).
Proof.
  intros Hwf.
  assert (exists bytes, appends (track g) (track (record_events o events g)) bytes)
    as [bytes (_ & Hd & Hs)]; [| exists bytes; split; assumption].
  unfold record_events. revert g Hwf.
  induction events as [| ev events IH]; intros g Hwf; simpl.
  - exists []. apply appends_refl, Hwf.
  - destruct (record_event_appends (queue o) ev g Hwf) as [b1 H1].
    destruct (IH _ (appends_wf _ _ _ H1)) as [b2 H2].
    exists (b1 ++ b2). eapply appends_trans; eassumption.
Qed.

Lemma recording_only_appends_witness :
  track_wf (track empty_globals) /\
  exists bytes,
    track_data (track (record_events (default_options 0)
                         [note_on_at_0; note_off_at_384] empty_globals)) =
      track_data (track empty_globals) ++ bytes /\
    size (track (record_events (default_options 0)
                   [note_on_at_0; note_off_at_384] empty_globals)) =
      size (track empty_globals) + Z.of_nat (length bytes).
Proof.
  split; [exact init_tracks_wf |].
  apply (recording_only_appends (default_options 0) _ empty_globals init_tracks_wf).
Defined.

(** ** The options *)

Lemma ts_dd_loop_log2 fuel : forall x ts_dd,
  (Z.to_nat x < fuel)%nat -> ts_dd_loop fuel x ts_dd = Some (ts_dd + Z.log2 x).
Proof.
  induction fuel as [| fuel IH]; intros x ts_dd Hfuel; [lia |].
  cbn [ts_dd_loop]. destruct (Z.ltb_spec 1 x) as [Hx | Hx].
  - assert (x ÷ 2 = x ≫ 1) as ->
      by (rewrite Z.quot_div_nonneg, Z.shiftr_div_pow2 by lia; reflexivity).
    rewrite IH.
    + rewrite Z.log2_shiftr by lia.
      assert (1 <= Z.log2 x) by (apply Z.log2_le_pow2; lia).
      f_equal. lia.
    + rewrite Z.shiftr_div_pow2 by lia. change (2 ^ 1) with 2.
      assert (x / 2 < x) by (apply Z.div_lt; lia).
      assert (0 <= x / 2) by (apply Z.div_pos; lia). lia.
  - f_equal. destruct (Z.eq_dec x 1) as [-> | Hne]; [change (Z.log2 1) with 0; lia |].
    rewrite Z.log2_nonpos by lia. lia.
Qed.

(** [time_signature] accepts a numerator and a denominator from 1 to 64 with
    a colon between them, and nothing else.  The exponent it computes for the
    denominator is its binary logarithm rounded down: a power of two is
    recorded exactly, any other denominator as the next lower power of two.
    The loop that computes it always ends. *)
Theorem time_signature_checked x1 sep x2 s :
  time_signature x1 sep x2 s <> Out_of_fuel /\
  (1 <= x1 <= 64 /\ sep = 58 /\ 1 <= x2 <= 64 ->
   exists s',
     time_signature x1 sep x2 s = Ok s' /\
     arg_ts_num s' = x1 /\ arg_ts_div s' = x2 /\
     0 <= arg_ts_dd s' <= 6 /\
     2 ^ arg_ts_dd s' <= x2 < 2 ^ (arg_ts_dd s' + 1) /\
     arg_beats s' = arg_beats s /\ arg_ticks s' = arg_ticks s /\
     arg_frames s' = arg_frames s /\ arg_smpte_timing s' = arg_smpte_timing s) /\
  (~ (1 <= x1 <= 64 /\ sep = 58 /\ 1 <= x2 <= 64) ->
   time_signature x1 sep x2 s = Fatal Invalid_time_signature).
Proof.
  unfold time_signature.
  rewrite (ts_dd_loop_log2 (S (Z.to_nat x2)) x2 0) by lia.
  destruct (Z.ltb_spec x1 1), (Z.ltb_spec 64 x1), (Z.eqb_spec sep 58),
    (Z.ltb_spec x2 1), (Z.ltb_spec 64 x2); cbn [orb negb];
    (split; [discriminate |]); (split; [intros (? & ? & ?); try lia | intros Hn; try reflexivity]).
  - eexists. split; [reflexivity |]. cbn.
    pose proof (Z.log2_spec x2 ltac:(lia)) as Hspec.
    assert (Z.log2 x2 < 7) by (apply Z.log2_lt_pow2; lia).
    pose proof (Z.log2_nonneg x2).
    repeat split; try lia; apply Hspec.
  - exfalso. apply Hn. lia.
Qed.

Lemma time_signature_checked_witness :
  (1 <= 6 <= 64 /\ 58 = 58 /\ 1 <= 8 <= 64) /\
  exists s',
    time_signature 6 58 8 initial_settings = Ok s' /\
    arg_ts_num s' = 6 /\ arg_ts_div s' = 8 /\
    0 <= arg_ts_dd s' <= 6 /\
    2 ^ arg_ts_dd s' <= 8 < 2 ^ (arg_ts_dd s' + 1) /\
    arg_beats s' = arg_beats initial_settings /\
    arg_ticks s' = arg_ticks initial_settings /\
    arg_frames s' = arg_frames initial_settings /\
    arg_smpte_timing s' = arg_smpte_timing initial_settings.
Proof.
  assert (1 <= 6 <= 64 /\ 58 = 58 /\ 1 <= 8 <= 64) as H by lia.
  split; [exact H |].
  apply (proj1 (proj2 (time_signature_checked 6 58 8 initial_settings)) H).
Defined.

Lemma initial_settings_checked : settings_checked initial_settings.
Proof.
  unfold settings_checked. cbn.
  repeat split; lia.
Qed.

Lemma time_signature_ok x1 sep x2 s s' :
  time_signature x1 sep x2 s = Ok s' ->
  1 <= arg_ts_num s' <= 64 /\ 0 <= arg_ts_dd s' <= 6 /\
  arg_beats s' = arg_beats s /\ arg_ticks s' = arg_ticks s /\
  arg_frames s' = arg_frames s /\ arg_smpte_timing s' = arg_smpte_timing s /\
  arg_got_a_port s' = arg_got_a_port s /\ arg_timeout s' = arg_timeout s.
Proof.
  unfold time_signature. intros H.
  destruct (Z.ltb_spec x1 1), (Z.ltb_spec 64 x1), (negb (sep =? 58));
    cbn [orb] in H; try discriminate H.
  destruct (Z.ltb_spec x2 1), (Z.ltb_spec 64 x2); cbn [orb] in H; try discriminate H.
  rewrite (ts_dd_loop_log2 (S (Z.to_nat x2)) x2 0) in H by lia.
  inversion H. cbn.
  assert (Z.log2 x2 < 7) by (apply Z.log2_lt_pow2; lia).
  pose proof (Z.log2_nonneg x2).
  repeat split; lia.
Qed.

Ltac checked :=
  repeat split; auto; try lia; try (intros; simpl; lia); try (intros; discriminate).

Lemma handle_option_checked s c s' :
  settings_checked s -> handle_option s c = Ok (Next s') ->
  settings_checked s' /\
  (arg_got_a_port s = true -> arg_got_a_port s' = true).
Proof.
  unfold settings_checked.
  intros (Hb & Ht & Hf & Hn & Hd & Hto) H.
  destruct c; cbn [handle_option] in H.
  - discriminate H.
  - discriminate H.
  - inversion H; subst; cbn. checked.
  - unfold parse_port in H. destruct comma; [discriminate H |].
    destruct (err <? 0); [discriminate H |].
    inversion H; subst; cbn. checked.
  - destruct (Z.ltb_spec atoi 4), (Z.ltb_spec 6000 atoi); cbn [orb] in H;
      try discriminate H.
    inversion H; subst; cbn. checked.
  - destruct (Z.eqb_spec atoi 24), (Z.eqb_spec atoi 25), (Z.eqb_spec atoi 29),
      (Z.eqb_spec atoi 30); cbn [negb andb] in H; try discriminate H;
      inversion H; subst; cbn; checked.
  - destruct (Z.ltb_spec atoi 1), (Z.ltb_spec 0x7fff atoi); cbn [orb] in H;
      try discriminate H.
    inversion H; subst; cbn. checked.
  - inversion H; subst. checked.
  - destruct (time_signature x1 sep x2 s) as [s0 | e |] eqn:Hs0; try discriminate H.
    inversion H; subst s0.
    destruct (time_signature_ok _ _ _ _ _ Hs0)
      as (Hnum & Hdd & Hbeats & Hticks & Hframes & Hsmpte & Hport & Htimeout).
    rewrite Hbeats, Hticks, Hframes, Hsmpte, Hport, Htimeout.
    checked.
  - destruct (Z.ltb_spec atoi 0); [discriminate H |].
    inversion H; subst; cbn. checked.
  - discriminate H.
Qed.

Lemma option_loop_checked opts : forall s s',
  settings_checked s -> option_loop opts s = Ok (Next s') ->
  settings_checked s'.
Proof.
  induction opts as [| c opts IH]; intros s s' Hs H; cbn [option_loop] in H.
  - inversion H; subst. exact Hs.
  - destruct (handle_option s c) as [[s1 | code] | e |] eqn:Hc; try discriminate H.
    apply (IH s1 s'); [| exact H].
    apply (handle_option_checked s c s1 Hs Hc).
Qed.

(** When [main] gets past its options to the recording, the settings are in
    the ranges the rest relies on: a port was given, the tempo is from 4 to
    6000, the ticks from 1 to [0x7fff] (384 or 40 when no option set them) and
    at most [0xff] with SMPTE timing, where the frame rate is one of 24, 25,
    29 and 30; so [create_queue] finds a tempo and does not end in its
    [fatal]. *)
Theorem options_checked opts has_file s s' :
  option_loop opts initial_settings = Ok (Next s) ->
  after_options has_file s = Next s' ->
  arg_got_a_port s' = true /\ arg_do_list s' = false /\
  4 <= arg_beats s' <= 6000 /\
  1 <= arg_ticks s' <= 0x7fff /\
  (arg_smpte_timing s' = true ->
   In (arg_frames s') [24; 25; 29; 30] /\ arg_ticks s' <= 0xff) /\
  1 <= arg_ts_num s' <= 64 /\ 0 <= arg_ts_dd s' <= 6 /\
  0 <= arg_timeout s' /\
  exists tempo ppq,
    create_queue_tempo s' = Ok (tempo, ppq) /\ 0 < tempo /\ 0 < ppq.
Proof.
  intros Hloop Hafter.
  pose proof (option_loop_checked opts _ _ initial_settings_checked Hloop)
    as (Hb & Ht & Hf & Hn & Hd & Hto).
  unfold after_options in Hafter.
  destruct (arg_do_list s) eqn:Hlist; [discriminate Hafter |].
  destruct (arg_got_a_port s) eqn:Hport; [| discriminate Hafter].
  cbn [negb] in Hafter. destruct has_file; [| discriminate Hafter].
  cbn [negb] in Hafter. inversion Hafter as [Hs']. clear Hafter.
  cbn [arg_got_a_port arg_do_list arg_beats arg_ticks arg_smpte_timing arg_frames
       arg_ts_num arg_ts_dd arg_timeout].
  set (ticks' := if arg_smpte_timing s && (0xff <? _) then 0xff else _).
  assert (1 <= ticks' <= 0x7fff /\ (arg_smpte_timing s = true -> ticks' <= 0xff)) as [Ht1 Ht2].
  { subst ticks'.
    destruct (arg_smpte_timing s), (Z.eqb_spec (arg_ticks s) 0); cbn [andb];
      repeat match goal with |- context [?a <? ?b] => destruct (Z.ltb_spec a b) end;
      split; try lia; intros; try lia; discriminate. }
  split; [reflexivity |]. split; [reflexivity |]. split; [lia |]. split; [lia |].
  split; [intros Hs; split; [apply Hf, Hs | apply Ht2, Hs] |].
  split; [lia |]. split; [lia |]. split; [lia |].
  unfold create_queue_tempo.
  cbn [arg_smpte_timing arg_beats arg_ticks arg_frames].
  destruct (arg_smpte_timing s) eqn:Hsmpte; cbn [negb].
  - specialize (Hf eq_refl). simpl in Hf.
    destruct Hf as [<- | [<- | [<- | [<- | []]]]]; cbn;
      eexists _, _; (split; [reflexivity | lia]).
  - eexists _, _. split; [reflexivity |]. split; [| lia].
    rewrite Z.quot_div_nonneg by lia. apply Z.div_str_pos. lia.
Qed.

Lemma options_checked_witness :
  let opts := [opt_p false 0; opt_f 25; opt_t 1000] in
  let s := {| arg_smpte_timing := true; arg_beats := 120; arg_frames := 25;
              arg_ticks := 1000; arg_timeout := 0;
              arg_ts_num := 4; arg_ts_div := 4; arg_ts_dd := 2;
              arg_got_a_port := true; arg_do_list := false |} in
  let s' := {| arg_smpte_timing := true; arg_beats := 120; arg_frames := 25;
               arg_ticks := 0xff; arg_timeout := 0;
               arg_ts_num := 4; arg_ts_div := 4; arg_ts_dd := 2;
               arg_got_a_port := true; arg_do_list := false |} in
  (option_loop opts initial_settings = Ok (Next s) /\
   after_options true s = Next s') /\
  1 <= arg_ticks s' <= 0x7fff.
Proof.
  intros opts s s'.
  assert (option_loop opts initial_settings = Ok (Next s)) as H1 by reflexivity.
  assert (after_options true s = Next s') as H2 by reflexivity.
  split; [split; assumption |].
  apply (options_checked opts true s s' H1 H2).
Defined.

(** With SMPTE timing the queue gets a tempo and a resolution that make as
    many ticks per second as the frame rate times the ticks per frame, 29
    standing for 29.97: [ppq * 10^6 / tempo = frames * ticks]. *)
Theorem smpte_queue_ticks_per_second s tempo ppq :
  arg_smpte_timing s = true ->
  create_queue_tempo s = Ok (tempo, ppq) ->
  In (arg_frames s) [24; 25; 29; 30] /\
  100 * ppq * 1000000 =
    tempo * (if arg_frames s =? 29 then 2997 else 100 * arg_frames s) * arg_ticks s.
Proof.
  intros Hs H. unfold create_queue_tempo in H. rewrite Hs in H. cbn [negb] in H.
  destruct (Z.eqb_spec (arg_frames s) 24) as [-> | _];
    [inversion H; subst; split; [simpl; tauto | cbn; lia] |].
  destruct (Z.eqb_spec (arg_frames s) 25) as [-> | _];
    [inversion H; subst; split; [simpl; tauto | cbn; lia] |].
  destruct (Z.eqb_spec (arg_frames s) 29) as [-> | _];
    [inversion H; subst; split; [simpl; tauto | cbn; lia] |].
  destruct (Z.eqb_spec (arg_frames s) 30) as [-> | _];
    [inversion H; subst; split; [simpl; tauto | cbn; lia] | discriminate H].
Qed.

Lemma smpte_queue_ticks_per_second_witness :
  let s := {| arg_smpte_timing := true; arg_beats := 120; arg_frames := 29;
              arg_ticks := 40; arg_timeout := 0;
              arg_ts_num := 4; arg_ts_div := 4; arg_ts_dd := 2;
              arg_got_a_port := true; arg_do_list := false |} in
  (arg_smpte_timing s = true /\
   create_queue_tempo s = Ok (100000000, 2997 * 40)) /\
  In (arg_frames s) [24; 25; 29; 30].
Proof.
  intros s. split; [split; reflexivity |].
  apply (smpte_queue_ticks_per_second s 100000000 (2997 * 40) eq_refl eq_refl).
Defined.
